(** * A blocked FP16 matrix multiplication kernel and its host wrapper

    Shallow embedding of [03-matrix-multiplication.ipynb]: the autotuning
    catalogs, the grouped launch-grid ordering, the tile address
    generation, the masked accumulation loop, the fused activation, the
    masked write-back and the host wrapper [matmul].

    Conventions of the embedding.
    - Sizes, program ids, tile and lane indices are mathematical integers
      ([Z]): an index stays below [M + BLOCK_SIZE_M], [N + BLOCK_SIZE_N] or
      [K + BLOCK_SIZE_K].  Every quantity divided or reduced below is
      non-negative, where Python's floor division and Triton's truncating
      division agree with [Z.div] and [Z.modulo].
    - The element offsets that the kernel forms from an index and a stride
      argument are 32-bit integers, as Triton types them, and wrap around
      ([wrap32]); adding an offset to a pointer does not.
    - A tensor's storage is a [list] of elements; a pointer is an element
      offset from the start of the storage.  A load or a store through an
      enabled lane whose offset is outside the storage is a memory fault
      ([None]); a disabled (masked) lane touches no memory.
    - A block (a Triton tensor of static shape) is a function from lane
      indices to values; its shape is carried by the operations on it.
    - Floating point is abstracted by an interface [Arith] with separate
      types for input elements, accumulator elements and output elements. *)

From stdpp Require Import base option list list_numbers strings gmap.
From Stdlib Require Import ZArith QArith Lia.

Local Open Scope Z_scope.

(** ** Autotuning catalogs *)

(** [triton.Config({...}, num_stages=..., num_warps=...)]. *)
Record Config := mkConfig {
  BLOCK_SIZE_M : Z;
  BLOCK_SIZE_N : Z;
  BLOCK_SIZE_K : Z;
  GROUP_SIZE_M : Z;
  waves_per_eu : option Z;
  num_stages : Z;
  num_warps : Z
}.

Definition cuda_config (bm bn bk g stages warps : Z) : Config :=
  mkConfig bm bn bk g None stages warps.

Definition hip_config (bm bn bk g waves warps stages : Z) : Config :=
  mkConfig bm bn bk g (Some waves) stages warps.

Definition get_cuda_autotune_config : list Config :=
  [ cuda_config 128 256 64 8 3 8;
    cuda_config 64 256 32 8 4 4;
    cuda_config 128 128 32 8 4 4;
    cuda_config 128 64 32 8 4 4;
    cuda_config 64 128 32 8 4 4;
    cuda_config 128 32 32 8 4 4;
    cuda_config 64 32 32 8 5 2;
    cuda_config 32 64 32 8 5 2;
    (* Good config for fp8 inputs. *)
    cuda_config 128 256 128 8 3 8;
    cuda_config 256 128 128 8 3 8;
    cuda_config 256 64 128 8 4 4;
    cuda_config 64 256 128 8 4 4;
    cuda_config 128 128 128 8 4 4;
    cuda_config 128 64 64 8 4 4;
    cuda_config 64 128 64 8 4 4;
    cuda_config 128 32 64 8 4 4 ].

Definition get_hip_autotune_config : list Config :=
  [ hip_config 128 256 16 1 2 4 2;
    hip_config 256 256 16 4 2 8 2;
    hip_config 128 128 32 1 2 8 2;
    hip_config 64 128 32 8 3 4 2;
    hip_config 64 64 32 1 8 4 2 ].

(** [is_cuda ()] is a fact about the running backend; it is an input here. *)
Definition get_autotune_config (is_cuda : bool) : list Config :=
  if is_cuda then get_cuda_autotune_config else get_hip_autotune_config.

(** Block sizes and the group size of a usable configuration are positive. *)
Definition valid_config (META : Config) : bool :=
  (0 <? BLOCK_SIZE_M META) && (0 <? BLOCK_SIZE_N META) &&
  (0 <? BLOCK_SIZE_K META) && (1 <=? GROUP_SIZE_M META).

(** ** Integer helpers *)

(** [triton.cdiv(x, div)] and [tl.cdiv(x, div)]: [(x + div - 1) // div]. *)
Definition cdiv (x div : Z) : Z := (x + div - 1) / div.

(** ** Launch grid mapping (first part of [matmul_kernel]) *)

Section GridMapping.
Variables (M N : Z) (META : Config).

Definition num_pid_m : Z := cdiv M (BLOCK_SIZE_M META).
Definition num_pid_n : Z := cdiv N (BLOCK_SIZE_N META).
Definition num_pid_in_group : Z := GROUP_SIZE_M META * num_pid_n.
Definition group_id (pid : Z) : Z := pid / num_pid_in_group.
Definition first_pid_m (pid : Z) : Z := group_id pid * GROUP_SIZE_M META.
Definition group_size_m (pid : Z) : Z :=
  Z.min (num_pid_m - first_pid_m pid) (GROUP_SIZE_M META).
Definition pid_m (pid : Z) : Z :=
  first_pid_m pid + ((pid mod num_pid_in_group) mod group_size_m pid).
Definition pid_n (pid : Z) : Z :=
  (pid mod num_pid_in_group) / group_size_m pid.

(** The host's [grid] lambda: the number of program instances launched. *)
Definition grid : Z :=
  cdiv M (BLOCK_SIZE_M META) * cdiv N (BLOCK_SIZE_N META).
End GridMapping.

(** The boundary scenario of the tutorial's shapes: 9 x 9 blocks of 4,
    groups of 2 rows. *)
Definition META_4_4_4_2 : Config := mkConfig 4 4 4 2 None 1 1.

Example grid_9_9 : grid 9 9 META_4_4_4_2 = 9.
Proof. reflexivity. Qed.

Example tiles_9_9 :
  map (fun pid => (pid_m 9 9 META_4_4_4_2 pid, pid_n 9 9 META_4_4_4_2 pid))
      (seqZ 0 9)
  = [(0,0); (1,0); (0,1); (1,1); (0,2); (1,2); (2,0); (2,1); (2,2)].
Proof. reflexivity. Qed.

(** ** The grouped ordering is a bijection *)

Section GroupedOrder.
(** The arithmetic of the ordering, over the two grid dimensions and the
    group size only. *)
Variables (npm npn G : Z).
Hypothesis Hnpm : 0 <= npm.
Hypothesis Hnpn : 0 <= npn.
Hypothesis HG : 1 <= G.

Definition g_first (pid : Z) : Z := pid / (G * npn) * G.
Definition g_size (pid : Z) : Z := Z.min (npm - g_first pid) G.
Definition g_row (pid : Z) : Z := g_first pid + (pid mod (G * npn)) mod g_size pid.
Definition g_col (pid : Z) : Z := (pid mod (G * npn)) / g_size pid.

(** The position of tile [(r, c)] in the launch order. *)
Definition g_index (r c : Z) : Z :=
  let first := r / G * G in
  let size := Z.min (npm - first) G in
  r / G * (G * npn) + c * size + (r - first).

Lemma g_facts pid :
  0 <= pid < npm * npn ->
  0 < npn /\ 0 < G * npn /\
  0 <= pid / (G * npn) /\
  0 <= pid mod (G * npn) < G * npn /\
  pid = G * npn * (pid / (G * npn)) + pid mod (G * npn) /\
  0 <= g_first pid < npm /\
  1 <= g_size pid <= G /\
  g_first pid + g_size pid <= npm /\
  pid mod (G * npn) < g_size pid * npn.
Proof.
  intros Hpid.
  assert (0 < npn) by nia.
  assert (0 < G * npn) by nia.
  pose proof (Z.div_mod pid (G * npn) ltac:(lia)) as Hdm.
  pose proof (Z.mod_pos_bound pid (G * npn) ltac:(lia)) as Hmb.
  assert (0 <= pid / (G * npn)) by (apply Z.div_pos; lia).
  unfold g_size, g_first.
  set (g := pid / (G * npn)) in *. set (r := pid mod (G * npn)) in *.
  assert (g * G < npm) by nia.
  repeat split; try lia; try nia.
Qed.

Lemma g_row_col_range pid :
  0 <= pid < npm * npn ->
  0 <= g_row pid < npm /\ 0 <= g_col pid < npn /\
  g_first pid <= g_row pid < g_first pid + g_size pid /\
  g_row pid / G = pid / (G * npn) /\
  g_index (g_row pid) (g_col pid) = pid.
Proof.
  intros Hpid.
  destruct (g_facts pid Hpid) as (Hn & HW & Hg & Hr & Hdm & Hf & Hs & Hfs & Hrs).
  unfold g_row, g_col.
  set (s := g_size pid) in *. set (r := pid mod (G * npn)) in *.
  pose proof (Z.div_mod r s ltac:(lia)) as Hdm2.
  pose proof (Z.mod_pos_bound r s ltac:(lia)) as Hmb2.
  assert (0 <= r / s) by (apply Z.div_pos; lia).
  assert (r / s < npn) by (apply Z.div_lt_upper_bound; lia).
  assert (Hq : (g_first pid + r mod s) / G = pid / (G * npn)).
  { symmetry. apply (Z.div_unique _ _ _ (r mod s)); [lia|].
    unfold g_first. lia. }
  repeat split; try lia.
  unfold g_index. rewrite Hq.
  fold (g_first pid). fold (g_size pid). fold s.
  replace (g_first pid + r mod s - g_first pid) with (r mod s) by lia.
  nia.
Qed.

Lemma g_index_range r c :
  0 <= r < npm -> 0 <= c < npn ->
  0 <= g_index r c < npm * npn /\
  g_row (g_index r c) = r /\ g_col (g_index r c) = c.
Proof.
  intros Hr Hc.
  pose proof (Z.div_mod r G ltac:(lia)) as Hdm.
  pose proof (Z.mod_pos_bound r G ltac:(lia)) as Hmb.
  assert (0 <= r / G) by (apply Z.div_pos; lia).
  unfold g_index.
  set (g := r / G) in *.
  set (s := Z.min (npm - g * G) G).
  assert (Hs : 1 <= s <= G /\ g * G + s <= npm /\ r - g * G < s).
  { unfold s. apply Z.min_case_strong; intros; lia. }
  set (w := c * s + (r - g * G)).
  assert (Hw : 0 <= w < G * npn) by (unfold w; nia).
  assert (Hdiv : (g * (G * npn) + c * s + (r - g * G)) / (G * npn) = g).
  { symmetry. apply (Z.div_unique _ _ _ w); [lia | unfold w; lia]. }
  assert (Hmod : (g * (G * npn) + c * s + (r - g * G)) mod (G * npn) = w).
  { symmetry. apply (Z.mod_unique _ _ g); [lia | unfold w; lia]. }
  split; [unfold w in *; nia|].
  unfold g_row, g_col, g_size, g_first. rewrite Hdiv, Hmod. fold s.
  split.
  - assert (w mod s = r - g * G); [|lia].
    symmetry. apply (Z.mod_unique _ _ c); [lia | unfold w; lia].
  - symmetry. apply (Z.div_unique _ _ _ (r - g * G)); [lia | unfold w; lia].
Qed.
End GroupedOrder.

(** ** Facts about [cdiv] *)

Lemma cdiv_nonneg x d : 0 <= x -> 0 < d -> 0 <= cdiv x d.
Proof. intros. unfold cdiv. apply Z.div_pos; lia. Qed.

Lemma cdiv_bounds x d :
  0 < d -> (cdiv x d - 1) * d < x <= cdiv x d * d.
Proof.
  intros Hd. unfold cdiv.
  pose proof (Z.div_mod (x + d - 1) d ltac:(lia)).
  pose proof (Z.mod_pos_bound (x + d - 1) d ltac:(lia)).
  nia.
Qed.

(** A tile index below [cdiv x d] starts inside the extent [x]. *)
Lemma tile_start_lt x d t : 0 < d -> 0 <= t < cdiv x d -> t * d < x.
Proof. intros Hd Ht. pose proof (cdiv_bounds x d Hd). nia. Qed.

(** The tile that holds index [i]. *)
Lemma tile_of_index x d i :
  0 < d -> 0 <= i < x -> 0 <= i / d < cdiv x d.
Proof.
  intros Hd Hi. pose proof (cdiv_bounds x d Hd).
  pose proof (Z.div_mod i d ltac:(lia)). pose proof (Z.mod_pos_bound i d Hd).
  split; [apply Z.div_pos; lia | nia].
Qed.

Lemma catalog_valid is_cuda META :
  META ∈ get_autotune_config is_cuda -> valid_config META = true.
Proof.
  intros Hin.
  assert (Hall : forallb valid_config (get_autotune_config is_cuda) = true)
    by (destruct is_cuda; reflexivity).
  rewrite forallb_forall in Hall. apply Hall. by apply list_elem_of_In.
Qed.

Lemma valid_config_pos META :
  valid_config META = true ->
  0 < BLOCK_SIZE_M META /\ 0 < BLOCK_SIZE_N META /\
  0 < BLOCK_SIZE_K META /\ 1 <= GROUP_SIZE_M META.
Proof. unfold valid_config. intros H. lia. Qed.

(** Program ids below [grid] map into the tile grid, inside their group. *)
Lemma grid_mapping_range (M N : Z) (META : Config) (pid : Z) :
  0 <= M -> 0 <= N ->
  0 < BLOCK_SIZE_M META -> 0 < BLOCK_SIZE_N META -> 1 <= GROUP_SIZE_M META ->
  0 <= pid < grid M N META ->
  0 <= pid_m M N META pid < num_pid_m M META /\
  0 <= pid_n M N META pid < num_pid_n N META /\
  1 <= group_size_m M N META pid <= GROUP_SIZE_M META /\
  first_pid_m N META pid <= pid_m M N META pid
    < first_pid_m N META pid + group_size_m M N META pid /\
  first_pid_m N META pid + group_size_m M N META pid <= num_pid_m M META.
Proof.
  intros HM HN HBM HBN HG Hpid.
  pose proof (cdiv_nonneg M _ HM HBM) as Hm.
  pose proof (cdiv_nonneg N _ HN HBN) as Hn.
  destruct (g_row_col_range _ _ _ Hm Hn HG pid Hpid) as (? & ? & ? & ? & ?).
  destruct (g_facts _ _ _ Hm HG pid Hpid) as (_ & _ & _ & _ & _ & _ & ? & ? & _).
  repeat split; tauto || lia.
Qed.

(** Every tile of the grid is the image of a program id below [grid]. *)
Lemma grid_mapping_onto (M N : Z) (META : Config) (r c : Z) :
  0 <= M -> 0 <= N ->
  0 < BLOCK_SIZE_M META -> 0 < BLOCK_SIZE_N META -> 1 <= GROUP_SIZE_M META ->
  0 <= r < num_pid_m M META -> 0 <= c < num_pid_n N META ->
  exists pid, 0 <= pid < grid M N META /\
    pid_m M N META pid = r /\ pid_n M N META pid = c.
Proof.
  intros HM HN HBM HBN HG Hr Hc.
  pose proof (cdiv_nonneg M _ HM HBM) as Hm.
  pose proof (cdiv_nonneg N _ HN HBN) as Hn.
  exists (g_index (num_pid_m M META) (num_pid_n N META) (GROUP_SIZE_M META) r c).
  apply (g_index_range _ _ _ Hm Hn HG r c Hr Hc).
Qed.



(** ** Numeric interface *)

(** The element types of the kernel: [In] for the elements of A and B,
    [Acc] for the accumulator ([tl.float32]) and [Out] for the stored
    result ([tl.float16]). *)
Class Arith (In Acc Out : Type) := {
  in_zero : In;                 (* [other=0.0] of a masked load *)
  acc_zero : Acc;               (* an element of [tl.zeros(..., tl.float32)] *)
  acc_add : Acc -> Acc -> Acc;
  in_mul : In -> In -> Acc;     (* a product of two inputs, formed in [Acc] *)
  acc_nonneg : Acc -> bool;     (* [x >= 0] *)
  acc_centi : Acc -> Acc;       (* [0.01 * x] *)
  to_out : Acc -> Out           (* [.to(tl.float16)] *)
}.

(** Exact arithmetic: what holds when no rounding takes place. *)
Class ArithLaws (In Acc Out : Type) `{Arith In Acc Out} := {
  acc_add_assoc : forall x y z : Acc,
    acc_add x (acc_add y z) = acc_add (acc_add x y) z;
  acc_add_0_l : forall x : Acc, acc_add acc_zero x = x;
  acc_add_0_r : forall x : Acc, acc_add x acc_zero = x;
  in_mul_0_0 : in_mul in_zero in_zero = acc_zero
}.

(** ** Blocks, loads and stores *)

Definition block (T : Type) : Type := Z -> Z -> T.

(** The lanes of a block of shape [rows x cols], in row-major order. *)
Definition lanes (rows cols : Z) : list (Z * Z) :=
  list_prod (seqZ 0 rows) (seqZ 0 cols).

(** A [for] loop over [xs] whose body may fault. *)
Fixpoint for_each {X S : Type} (body : X -> S -> option S)
    (xs : list X) (st : S) : option S :=
  match xs with
  | [] => Some st
  | x :: xs' => match body x st with
                | Some st' => for_each body xs' st'
                | None => None
                end
  end.

Definition in_bounds {T : Type} (buf : list T) (p : Z) : bool :=
  (0 <=? p) && (p <? Z.of_nat (length buf)).

(** [tl.load(ptrs, mask=mask, other=other)] over a block of shape
    [rows x cols]. *)
Definition load {T : Type} (buf : list T) (rows cols : Z)
    (ptrs : block Z) (mask : block bool) (other : T) : option (block T) :=
  if forallb (fun l : Z * Z => implb (mask l.1 l.2) (in_bounds buf (ptrs l.1 l.2)))
       (lanes rows cols)
  then Some (fun i j =>
         if mask i j then default other (buf !! Z.to_nat (ptrs i j)) else other)
  else None.

(** One lane of [tl.store]. *)
Definition store_lane {T : Type} (ptrs : block Z) (value : block T)
    (mask : block bool) (l : Z * Z) (buf : list T) : option (list T) :=
  if mask l.1 l.2 then
    if in_bounds buf (ptrs l.1 l.2)
    then Some (<[Z.to_nat (ptrs l.1 l.2) := value l.1 l.2]> buf)
    else None
  else Some buf.

(** [tl.store(ptrs, value, mask=mask)] over a block of shape [rows x cols]. *)
Definition store {T : Type} (buf : list T) (rows cols : Z)
    (ptrs : block Z) (value : block T) (mask : block bool) : option (list T) :=
  for_each (store_lane ptrs value mask) (lanes rows cols) buf.

(** ** Offsets in 32 bits *)

(** Triton types an integer argument of the kernel that fits in 32 bits
    as [int32], and any other as [int64]; program ids, [tl.arange] and the
    [constexpr] block sizes are [int32].  A product or a sum of [int32]
    values is an [int32] and wraps around; a pointer is 64 bits wide, and
    adding an offset to it does not wrap on any storage a device holds. *)
Definition int32 (x : Z) : Prop := - 2147483648 <= x < 2147483648.

Definition int32b (x : Z) : bool := (- 2147483648 <=? x) && (x <? 2147483648).

(** The value of [x] as a signed 32-bit integer. *)
Definition wrap32 (x : Z) : Z := (x + 2147483648) mod 4294967296 - 2147483648.

(** [idx * arg] for an [int32] index and an integer argument of the
    kernel. *)
Definition mul_arg (idx arg : Z) : Z :=
  if int32b arg then wrap32 (idx * arg) else idx * arg.

(** [x + y] for two offsets that were formed from the arguments [arg1]
    and [arg2]. *)
Definition add_args (arg1 arg2 : Z) (x y : Z) : Z :=
  if int32b arg1 && int32b arg2 then wrap32 (x + y) else x + y.

(** ** The kernel *)

Section Kernel.
Context {In Acc Out : Type} `{!Arith In Acc Out}.

(** [tl.dot(a, b, acc)] for [a] of shape [_ x BK] and [b] of shape
    [BK x _]: the accumulator plus the products summed over the shared
    axis. *)
Definition dot (BK : Z) (a b : block In) (acc : block Acc) : block Acc :=
  fun i j =>
    acc_add (acc i j)
      (fold_left (fun s k => acc_add s (in_mul (a i k) (b k j)))
         (seqZ 0 BK) acc_zero).

(** [leaky_relu(x)]: [tl.where(x >= 0, x, 0.01 * x)], on one element. *)
Definition leaky_relu (x : Acc) : Acc :=
  if acc_nonneg x then x else acc_centi x.

Variables (a_buf b_buf : list In).
Variables (M N K : Z).
Variables (stride_am stride_ak stride_bk stride_bn stride_cm stride_cn : Z).
Variable (META : Config).
Variable (ACTIVATION : string).
Variable (pid : Z).

Definition offs_am (i : Z) : Z :=
  (pid_m M N META pid * BLOCK_SIZE_M META + i) mod M.
Definition offs_bn (j : Z) : Z :=
  (pid_n M N META pid * BLOCK_SIZE_N META + j) mod N.
Definition offs_k (k : Z) : Z := k.

(** [a_ptr + (offs_am[:, None] * stride_am + offs_k[None, :] * stride_ak)]
    and the same for B, as offsets from the start of the storage: the
    offset in parentheses is formed in the integer type of the strides
    before it is added to the pointer. *)
Definition a_ptrs0 : block Z :=
  fun i k => add_args stride_am stride_ak
               (mul_arg (offs_am i) stride_am) (mul_arg (offs_k k) stride_ak).
Definition b_ptrs0 : block Z :=
  fun k j => add_args stride_bk stride_bn
               (mul_arg (offs_k k) stride_bk) (mul_arg (offs_bn j) stride_bn).

(** The variables the accumulation loop updates. *)
Record loop_state := mkLoop {
  accumulator : block Acc;
  a_ptrs : block Z;
  b_ptrs : block Z
}.

Definition k_mask (k : Z) (kk : Z) : bool :=
  offs_k kk <? K - k * BLOCK_SIZE_K META.

Definition loop_body (k : Z) (st : loop_state) : option loop_state :=
  match load a_buf (BLOCK_SIZE_M META) (BLOCK_SIZE_K META) (a_ptrs st)
          (fun _ kk => k_mask k kk) in_zero with
  | None => None
  | Some a =>
    match load b_buf (BLOCK_SIZE_K META) (BLOCK_SIZE_N META) (b_ptrs st)
            (fun kk _ => k_mask k kk) in_zero with
    | None => None
    | Some b =>
      Some {| accumulator := dot (BLOCK_SIZE_K META) a b (accumulator st);
              a_ptrs := fun i kk =>
                a_ptrs st i kk + mul_arg (BLOCK_SIZE_K META) stride_ak;
              b_ptrs := fun kk j =>
                b_ptrs st kk j + mul_arg (BLOCK_SIZE_K META) stride_bk |}
    end
  end.

Definition loop_init : loop_state :=
  {| accumulator := fun _ _ => acc_zero; a_ptrs := a_ptrs0; b_ptrs := b_ptrs0 |}.

(** [for k in range(0, tl.cdiv(K, BLOCK_SIZE_K))]. *)
Definition accumulation_loop : option loop_state :=
  for_each loop_body (seqZ 0 (cdiv K (BLOCK_SIZE_K META))) loop_init.

Definition activation (acc : block Acc) : block Acc :=
  if String.eqb ACTIVATION "leaky_relu"
  then fun i j => leaky_relu (acc i j)
  else acc.

Definition offs_cm (i : Z) : Z := pid_m M N META pid * BLOCK_SIZE_M META + i.
Definition offs_cn (j : Z) : Z := pid_n M N META pid * BLOCK_SIZE_N META + j.
(** [c_ptr + stride_cm * offs_cm[:, None] + stride_cn * offs_cn[None, :]]:
    each product is formed in the integer type of its stride, and the two
    are added to the pointer one after the other. *)
Definition c_ptrs : block Z :=
  fun i j => mul_arg (offs_cm i) stride_cm + mul_arg (offs_cn j) stride_cn.
Definition c_mask : block bool :=
  fun i j => (offs_cm i <? M) && (offs_cn j <? N).

(** One program instance of [matmul_kernel]: the new content of the
    storage of C, or a memory fault. *)
Definition matmul_kernel (c_buf : list Out) : option (list Out) :=
  match accumulation_loop with
  | None => None
  | Some st =>
    let acc := activation (accumulator st) in
    let c : block Out := fun i j => to_out (acc i j) in
    store c_buf (BLOCK_SIZE_M META) (BLOCK_SIZE_N META) c_ptrs c c_mask
  end.
End Kernel.

(** ** Tensors and the host wrapper *)

Inductive dtype := float8_e5m2 | float16 | float32.

Definition dtype_bits (d : dtype) : Z :=
  match d with float8_e5m2 => 8 | float16 => 16 | float32 => 32 end.

(** The accumulator of the kernel is [tl.zeros(..., dtype=tl.float32)] and
    [tl.dot(a, b, accumulator)] keeps that type; the stored block is
    [accumulator.to(tl.float16)]. *)
Definition accumulator_dtype : dtype := float32.
Definition stored_dtype : dtype := float16.

(** A two-dimensional torch tensor: a strided view of a storage. *)
Record tensor (T : Type) := mkTensor {
  t_dtype : dtype;
  shape0 : Z;
  shape1 : Z;
  stride0 : Z;
  stride1 : Z;
  storage : list T
}.
Arguments mkTensor {T}.
Arguments t_dtype {T}.
Arguments shape0 {T}.
Arguments shape1 {T}.
Arguments stride0 {T}.
Arguments stride1 {T}.
Arguments storage {T}.

(** [t.is_contiguous()], as the torch library defines it: no element, or
    row-major strides on every axis of size other than one. *)
Definition is_contiguous {T : Type} (t : tensor T) : bool :=
  (shape0 t * shape1 t =? 0) ||
  (((shape1 t =? 1) || (stride1 t =? 1)) &&
   ((shape0 t =? 1) ||
    (stride0 t =? (if shape1 t =? 1 then 1 else shape1 t)))).

(** A tensor the host can hold: non-negative shape, every element of the
    view inside the storage. *)
Definition tensor_wf {T : Type} (t : tensor T) : bool :=
  (0 <=? shape0 t) && (0 <=? shape1 t) &&
  forallb (fun l : Z * Z => in_bounds (storage t) (l.1 * stride0 t + l.2 * stride1 t))
    (lanes (shape0 t) (shape1 t)).

(** A tensor whose offsets the kernel can form in 32 bits: strides as
    torch gives them, none negative, over a storage of at most 2^31
    elements. *)
Definition addressable {T : Type} (t : tensor T) : bool :=
  (0 <=? stride0 t) && (0 <=? stride1 t) &&
  (Z.of_nat (length (storage t)) <=? 2147483648).

(** [t[i, j]]. *)
Definition elem {T : Type} (other : T) (t : tensor T) (i j : Z) : T :=
  default other (storage t !! Z.to_nat (i * stride0 t + j * stride1 t)).

(** [torch.empty((M, N), dtype=dt)], as the torch library defines it: a
    fresh row-major tensor whose content is whatever the allocator hands
    out, [fill]. *)
Definition torch_empty {T : Type} (fill : nat -> T) (M N : Z) (dt : dtype) : tensor T :=
  {| t_dtype := dt; shape0 := M; shape1 := N;
     stride0 := Z.max N 1; stride1 := 1;
     storage := map fill (seq 0 (Z.to_nat (M * N))) |}.

(** What a call of the wrapper ends in. *)
Inductive outcome (A : Type) :=
  | Returned (a : A)
  | AssertionError (msg : string)
  | MemoryFault.
Arguments Returned {A}.
Arguments AssertionError {A}.
Arguments MemoryFault {A}.

(** [kernel[grid](...)]: the program instances [0 .. n-1] run on the
    storage; the second component records the instances dispatched. *)
Definition launch {T : Type} (n : Z) (program : Z -> list T -> option (list T))
    (buf : list T) : option (list T * list Z) :=
  for_each (fun pid (st : list T * list Z) =>
              match program pid st.1 with
              | Some buf' => Some (buf', st.2 ++ [pid])
              | None => None
              end)
    (seqZ 0 n) (buf, []).

Section Host.
Context {In Acc Out : Type} `{!Arith In Acc Out}.

(** [matmul(a, b, activation)], for the configuration [META] that the
    autotuner resolves for this launch and the allocator content [fill].
    The result is [c] together with the program instances dispatched. *)
Definition matmul (META : Config) (fill : nat -> Out)
    (a b : tensor In) (activation : string)
    : outcome (tensor Out * list Z) :=
  if negb (shape1 a =? shape0 b) then AssertionError "Incompatible dimensions"
  else if negb (is_contiguous a) then AssertionError "Matrix A must be contiguous"
  else
    let M := shape0 a in
    let K := shape0 b in
    let N := shape1 b in
    let c := torch_empty fill M N float16 in
    match launch (grid M N META)
            (matmul_kernel (storage a) (storage b) M N K
               (stride0 a) (stride1 a) (stride0 b) (stride1 b)
               (stride0 c) (stride1 c) META activation)
            (storage c) with
    | Some (buf, ran) =>
        Returned ({| t_dtype := t_dtype c; shape0 := shape0 c; shape1 := shape1 c;
                     stride0 := stride0 c; stride1 := stride1 c;
                     storage := buf |}, ran)
    | None => MemoryFault
    end.

(** Specification side, not part of the program: element [(i, j)] of the
    mathematical product of [a] and [b], the sum over [k < K] of
    [a[i,k] * b[k,j]] taken in order in accumulator arithmetic. *)
Definition reference (a b : tensor In) (i j : Z) : Acc :=
  fold_left (fun s k => acc_add s (in_mul (elem in_zero a i k) (elem in_zero b k j)))
    (seqZ 0 (shape1 a)) acc_zero.
End Host.

(** The default of the wrapper's [activation] parameter, the empty
    string. *)
Definition default_activation : string := EmptyString.

(** ** Exact rational arithmetic as an instance *)

#[export] Instance Q_arith : Arith Q Q Q := {|
  in_zero := 0%Q;
  acc_zero := 0%Q;
  acc_add := Qplus;
  in_mul := Qmult;
  acc_nonneg := fun x => Qle_bool 0 x;
  acc_centi := fun x => Qmult (1 # 100) x;
  to_out := fun x => x
|}.

Lemma Qplus_assoc_eq (x y z : Q) : Qplus x (Qplus y z) = Qplus (Qplus x y) z.
Proof.
  destruct x as [a b], y as [c d], z as [e f]. unfold Qplus; simpl.
  f_equal; [|lia].
  rewrite !Pos2Z.inj_mul. ring.
Qed.

Lemma Qplus_0_l_eq (x : Q) : Qplus 0 x = x.
Proof. destruct x as [a b]. unfold Qplus; simpl. f_equal. lia. Qed.

Lemma Qplus_0_r_eq (x : Q) : Qplus x 0 = x.
Proof. destruct x as [a b]. unfold Qplus; simpl. f_equal; lia. Qed.

#[export] Instance Q_arith_laws : ArithLaws Q Q Q := {|
  acc_add_assoc := Qplus_assoc_eq;
  acc_add_0_l := Qplus_0_l_eq;
  acc_add_0_r := Qplus_0_r_eq;
  in_mul_0_0 := eq_refl
|}.

(** ** Concrete runs *)

Definition META_2_2_2_1 : Config := mkConfig 2 2 2 1 None 1 1.

Definition row_major {T : Type} (dt : dtype) (rows cols : Z) (xs : list T) : tensor T :=
  mkTensor dt rows cols cols 1 xs.

(** A = 2 * identity (4 x 4), B = all ones (4 x 4). *)
Definition twice_identity : tensor Q :=
  row_major float16 4 4 [2;0;0;0; 0;2;0;0; 0;0;2;0; 0;0;0;2]%Q.
Definition all_ones : tensor Q :=
  row_major float16 4 4 (replicate 16 1%Q).

Example matmul_twice_identity_all_ones :
  matmul META_2_2_2_1 (fun _ => 77%Q) twice_identity all_ones default_activation
  = Returned (row_major float16 4 4 (replicate 16 2%Q), [0; 1; 2; 3]).
Proof. vm_compute. reflexivity. Qed.

(** Two 9 x 9 tensors with small integer entries. *)
Definition a99 : tensor Q :=
  row_major float16 9 9 (map (fun n => inject_Z (Z.of_nat n mod 5 - 2)) (seq 0 81)).
Definition b99 : tensor Q :=
  row_major float16 9 9 (map (fun n => inject_Z (Z.of_nat n mod 7 - 3)) (seq 0 81)).

(** Blocks of 4 over 9 x 9: nine programs, and the result is the
    activated product. *)
Example matmul_9_9_leaky :
  matmul META_4_4_4_2 (fun _ => 77%Q) a99 b99 "leaky_relu"
  = Returned
      (row_major float16 9 9
         (flat_map (fun i => map (fun j => leaky_relu (reference a99 b99 i j))
                               (seqZ 0 9)) (seqZ 0 9)),
       seqZ 0 9).
Proof. vm_compute. reflexivity. Qed.

(** The program of the last tile, rows and columns 8 to 11, of which only
    row 8 and column 8 exist: it stores one element, at offset 80. *)
Example last_tile_stores_one_element :
  matmul_kernel (storage a99) (storage b99) 9 9 9 9 1 9 1 9 1
    META_4_4_4_2 default_activation 8 (replicate 100 77%Q)
  = Some (<[80%nat := reference a99 b99 8 8]> (replicate 100 77%Q)).
Proof. vm_compute. reflexivity. Qed.

(** ** Properties of loads and stores *)

Lemma elem_of_lanes rows cols i j :
  (i, j) ∈ lanes rows cols <-> (0 <= i < rows /\ 0 <= j < cols).
Proof.
  unfold lanes. rewrite list_elem_of_In, in_prod_iff, <- !list_elem_of_In.
  rewrite !elem_of_seqZ. lia.
Qed.

Lemma in_bounds_spec {T} (buf : list T) p :
  in_bounds buf p = true <-> 0 <= p < Z.of_nat (length buf).
Proof. unfold in_bounds. lia. Qed.

Lemma in_bounds_lookup {T} (buf : list T) p :
  in_bounds buf p = true <-> is_Some (buf !! Z.to_nat p) /\ 0 <= p.
Proof.
  rewrite in_bounds_spec, lookup_lt_is_Some. lia.
Qed.

Section StoreLanes.
Context {T : Type}.
Variables (ptrs : block Z) (value : block T) (mask : block bool).

Lemma store_lanes_length ls (buf buf' : list T) :
  for_each (store_lane ptrs value mask) ls buf = Some buf' ->
  length buf' = length buf.
Proof.
  revert buf. induction ls as [|l ls IH]; intros buf Hrun; simpl in Hrun.
  - by inversion Hrun.
  - unfold store_lane in Hrun at 1.
    destruct (mask l.1 l.2); [|by apply IH].
    destruct (in_bounds buf (ptrs l.1 l.2)); [|done].
    rewrite (IH _ Hrun). apply length_insert.
Qed.

Lemma store_lanes_frame ls (buf buf' : list T) (p : nat) :
  for_each (store_lane ptrs value mask) ls buf = Some buf' ->
  (forall l, l ∈ ls -> mask l.1 l.2 = true -> ptrs l.1 l.2 <> Z.of_nat p) ->
  buf' !! p = buf !! p.
Proof.
  revert buf. induction ls as [|l ls IH]; intros buf Hrun Hne; simpl in Hrun.
  - by inversion Hrun.
  - assert (Hne' : forall l', l' ∈ ls -> mask l'.1 l'.2 = true ->
                             ptrs l'.1 l'.2 <> Z.of_nat p)
      by (intros; apply Hne; [by right | done]).
    unfold store_lane in Hrun at 1.
    destruct (mask l.1 l.2) eqn:Hm; [|by apply IH].
    destruct (in_bounds buf (ptrs l.1 l.2)) eqn:Hb; [|done].
    rewrite (IH _ Hrun Hne'). apply list_lookup_insert_ne.
    apply in_bounds_spec in Hb.
    specialize (Hne l ltac:(left) Hm). lia.
Qed.

(** Lanes that store to one address store one value there. *)
Definition consistent (ls : list (Z * Z)) : Prop :=
  forall l1 l2, l1 ∈ ls -> l2 ∈ ls ->
    mask l1.1 l1.2 = true -> mask l2.1 l2.2 = true ->
    ptrs l1.1 l1.2 = ptrs l2.1 l2.2 -> value l1.1 l1.2 = value l2.1 l2.2.

Lemma store_lanes_written ls (buf buf' : list T) l :
  for_each (store_lane ptrs value mask) ls buf = Some buf' ->
  consistent ls ->
  l ∈ ls -> mask l.1 l.2 = true ->
  buf' !! Z.to_nat (ptrs l.1 l.2) = Some (value l.1 l.2).
Proof.
  revert buf l. induction ls as [|l0 ls IH]; intros buf l Hrun Hcons Hin Hm.
  - by apply elem_of_nil in Hin.
  - assert (Hcons' : consistent ls).
    { intros l1 l2 ? ?. apply Hcons; by right. }
    simpl in Hrun. unfold store_lane in Hrun at 1.
    destruct (decide (Exists
      (fun l' => mask l'.1 l'.2 = true /\ ptrs l'.1 l'.2 = ptrs l.1 l.2) ls))
      as [Hex|Hnex].
    + apply Exists_exists in Hex as (l' & Hl' & Hm' & Hp').
      assert (Hv : value l'.1 l'.2 = value l.1 l.2).
      { apply Hcons; [by right | done ..]. }
      rewrite <- Hp', <- Hv.
      destruct (mask l0.1 l0.2); [|by eapply IH].
      destruct (in_bounds buf (ptrs l0.1 l0.2)); [|done].
      by eapply IH.
    + apply elem_of_cons in Hin as [->|Hin].
      2:{ exfalso. apply Hnex, Exists_exists. by exists l. }
      rewrite Hm in Hrun.
      destruct (in_bounds buf (ptrs l0.1 l0.2)) eqn:Hb; [|done].
      apply in_bounds_spec in Hb.
      rewrite (store_lanes_frame _ _ _ _ Hrun).
      * apply list_lookup_insert_eq. lia.
      * intros l' Hl' Hm' Heq. apply Hnex, Exists_exists.
        exists l'. split; [done|]. split; [done|]. lia.
Qed.

Lemma store_lanes_ok ls (buf : list T) :
  (forall l, l ∈ ls -> mask l.1 l.2 = true -> in_bounds buf (ptrs l.1 l.2) = true) ->
  is_Some (for_each (store_lane ptrs value mask) ls buf).
Proof.
  revert buf. induction ls as [|l ls IH]; intros buf Hok; simpl.
  - by eexists.
  - unfold store_lane at 1.
    destruct (mask l.1 l.2) eqn:Hm.
    + rewrite (Hok l ltac:(left) Hm). apply IH.
      intros l' Hl' Hm'. rewrite in_bounds_spec, length_insert.
      apply in_bounds_spec, Hok; [by right | done].
    + apply IH. intros; apply Hok; [by right | done].
Qed.
End StoreLanes.

(** Two stores that agree lane by lane write the same storage. *)
Lemma store_lanes_ext {T} (ptrs ptrs' : block Z) (value value' : block T)
    (mask mask' : block bool) ls (buf : list T) :
  (forall l, l ∈ ls ->
     mask l.1 l.2 = mask' l.1 l.2 /\
     (mask l.1 l.2 = true ->
        ptrs l.1 l.2 = ptrs' l.1 l.2 /\ value l.1 l.2 = value' l.1 l.2)) ->
  for_each (store_lane ptrs value mask) ls buf
  = for_each (store_lane ptrs' value' mask') ls buf.
Proof.
  revert buf. induction ls as [|l ls IH]; intros buf Heq; [done|].
  simpl. destruct (Heq l ltac:(left)) as [Hm Hpv].
  assert (Hhead : store_lane ptrs value mask l buf
                  = store_lane ptrs' value' mask' l buf).
  { unfold store_lane. rewrite <- Hm.
    destruct (mask l.1 l.2); [|done].
    destruct (Hpv eq_refl) as [-> ->]. done. }
  rewrite Hhead.
  destruct (store_lane ptrs' value' mask' l buf); [|done].
  apply IH. intros; apply Heq. by right.
Qed.

Lemma load_Some {T} (buf : list T) rows cols ptrs mask other :
  (forall i j, 0 <= i < rows -> 0 <= j < cols -> mask i j = true ->
     in_bounds buf (ptrs i j) = true) ->
  load buf rows cols ptrs mask other
  = Some (fun i j =>
      if mask i j then default other (buf !! Z.to_nat (ptrs i j)) else other).
Proof.
  intros Hok. unfold load.
  rewrite (proj2 (forallb_forall _ _)); [done|].
  intros [i j] Hin. apply list_elem_of_In, elem_of_lanes in Hin as [Hi Hj].
  simpl. destruct (mask i j) eqn:Hm; [|done]. simpl. by apply Hok.
Qed.

Lemma load_inv {T} (buf : list T) rows cols ptrs mask other blk :
  load buf rows cols ptrs mask other = Some blk ->
  blk = (fun i j =>
      if mask i j then default other (buf !! Z.to_nat (ptrs i j)) else other) /\
  (forall i j, 0 <= i < rows -> 0 <= j < cols -> mask i j = true ->
     in_bounds buf (ptrs i j) = true).
Proof.
  unfold load. intros Hload.
  destruct (forallb _ _) eqn:Hall; [|done].
  split; [by inversion Hload|].
  intros i j Hi Hj Hm. rewrite forallb_forall in Hall.
  specialize (Hall (i, j)). simpl in Hall. rewrite Hm in Hall.
  apply Hall, list_elem_of_In, elem_of_lanes. done.
Qed.

(** ** The accumulation loop, step by step *)

Lemma fold_left_ext_in {A B : Type} (f g : A -> B -> A) (l : list B) (x : A) :
  (forall y k, k ∈ l -> f y k = g y k) -> fold_left f l x = fold_left g l x.
Proof.
  revert x. induction l as [|k l IH]; intros x Hfg; [done|].
  simpl. rewrite (Hfg x k ltac:(left)). apply IH.
  intros; apply Hfg. by right.
Qed.

Section LoopFacts.
Context {In Acc Out : Type} `{!Arith In Acc Out}.
Variables (a_buf b_buf : list In).
Variables (M N K : Z).
Variables (stride_am stride_ak stride_bk stride_bn : Z).
Variable (META : Config).
Variable (pid : Z).

Local Abbreviation BM := (BLOCK_SIZE_M META).
Local Abbreviation BN := (BLOCK_SIZE_N META).
Local Abbreviation BK := (BLOCK_SIZE_K META).
Local Abbreviation A0 := (a_ptrs0 M N stride_am stride_ak META pid).
Local Abbreviation B0 := (b_ptrs0 M N stride_bk stride_bn META pid).
Local Abbreviation body := (loop_body a_buf b_buf K stride_ak stride_bk META).

(** The element of A (of B) that a lane holds after the load of step [s]. *)
Definition a_lane (s i kk : Z) : In :=
  if k_mask K META s kk
  then default in_zero (a_buf !! Z.to_nat (A0 i kk + s * mul_arg BK stride_ak))
  else in_zero.
Definition b_lane (s kk j : Z) : In :=
  if k_mask K META s kk
  then default in_zero (b_buf !! Z.to_nat (B0 kk j + s * mul_arg BK stride_bk))
  else in_zero.

(** What step [s] adds to lane [(i, j)] of the accumulator. *)
Definition block_sum (s i j : Z) : Acc :=
  fold_left (fun t kk => acc_add t (in_mul (a_lane s i kk) (b_lane s kk j)))
    (seqZ 0 BK) acc_zero.

(** Lane [(i, j)] of the accumulator after the steps [steps], from [x]. *)
Definition acc_lane (steps : list Z) (x : Acc) (i j : Z) : Acc :=
  fold_left (fun y s => acc_add y (block_sum s i j)) steps x.

(** The enabled lanes of the loads of step [s] are inside the storages. *)
Definition a_ok (s : Z) : Prop :=
  forall i kk, 0 <= i < BM -> 0 <= kk < BK -> k_mask K META s kk = true ->
    in_bounds a_buf (A0 i kk + s * mul_arg BK stride_ak) = true.
Definition b_ok (s : Z) : Prop :=
  forall kk j, 0 <= kk < BK -> 0 <= j < BN -> k_mask K META s kk = true ->
    in_bounds b_buf (B0 kk j + s * mul_arg BK stride_bk) = true.

(** The pointers of a state stand [s] steps after the initial ones. *)
Definition at_step (s : Z) (st : @loop_state Acc) : Prop :=
  (forall i kk, a_ptrs st i kk = A0 i kk + s * mul_arg BK stride_ak) /\
  (forall kk j, b_ptrs st kk j = B0 kk j + s * mul_arg BK stride_bk).

Lemma loop_body_spec s st :
  at_step s st ->
  match body s st with
  | Some st' =>
      a_ok s /\ b_ok s /\ at_step (s + 1) st' /\
      forall i j, accumulator st' i j
                  = acc_add (accumulator st i j) (block_sum s i j)
  | None => ~ (a_ok s /\ b_ok s)
  end.
Proof.
  intros [Ha Hb]. unfold loop_body.
  destruct (load a_buf _ _ _ _ _) as [a|] eqn:Hla.
  2:{ intros [Hok _]. rewrite load_Some in Hla; [done|].
      intros i kk Hi Hkk Hm. rewrite Ha. by apply Hok. }
  apply load_inv in Hla as [-> Haok].
  destruct (load b_buf _ _ _ _ _) as [b|] eqn:Hlb.
  2:{ intros [_ Hok]. rewrite load_Some in Hlb; [done|].
      intros kk j Hkk Hj Hm. rewrite Hb. by apply Hok. }
  apply load_inv in Hlb as [-> Hbok].
  split; [|split; [|split]].
  - intros i kk Hi Hkk Hm. rewrite <- Ha. by apply Haok.
  - intros kk j Hkk Hj Hm. rewrite <- Hb. by apply Hbok.
  - split; simpl; intros; [rewrite Ha | rewrite Hb]; ring.
  - intros i j. simpl. unfold dot, block_sum. f_equal.
    apply fold_left_ext_in. intros y kk _.
    unfold a_lane, b_lane. by rewrite Ha, Hb.
Qed.

Lemma loop_spec (n : nat) : forall s0 st,
  at_step s0 st ->
  match for_each body (seqZ s0 (Z.of_nat n)) st with
  | Some st' =>
      (forall s, s0 <= s < s0 + Z.of_nat n -> a_ok s /\ b_ok s) /\
      at_step (s0 + Z.of_nat n) st' /\
      forall i j, accumulator st' i j
                  = acc_lane (seqZ s0 (Z.of_nat n)) (accumulator st i j) i j
  | None => ~ (forall s, s0 <= s < s0 + Z.of_nat n -> a_ok s /\ b_ok s)
  end.
Proof.
  induction n as [|n IH]; intros s0 st Hst.
  - simpl. split; [lia|]. split; [|done].
    by replace (s0 + Z.of_nat 0) with s0 by lia.
  - rewrite seqZ_cons by lia.
    replace (Z.pred (Z.of_nat (S n))) with (Z.of_nat n) by lia.
    simpl. pose proof (loop_body_spec s0 st Hst) as Hbody.
    destruct (body s0 st) as [st1|].
    2:{ intros Hall. apply Hbody, Hall. lia. }
    destruct Hbody as (Hao & Hbo & Hst1 & Hacc).
    replace (Z.succ s0) with (s0 + 1) by lia.
    specialize (IH (s0 + 1) st1 Hst1).
    destruct (for_each body (seqZ (s0 + 1) (Z.of_nat n)) st1) as [st'|].
    2:{ intros Hall. apply IH. intros s Hs. apply Hall. lia. }
    destruct IH as (Hall & Hst' & Hacc').
    split; [|split].
    + intros s Hs. destruct (decide (s = s0)) as [->|]; [done|].
      apply Hall. lia.
    + by replace (s0 + Z.of_nat (S n)) with (s0 + 1 + Z.of_nat n) by lia.
    + intros i j. rewrite Hacc'. unfold acc_lane. simpl. by rewrite Hacc.
Qed.

Lemma loop_init_at_step :
  at_step 0 (loop_init M N stride_am stride_ak stride_bk stride_bn META pid).
Proof. split; simpl; intros; ring. Qed.

(** The whole loop: it runs to its end exactly when every enabled lane
    of every step is inside the storages, and then each accumulator lane
    is the sum of the steps' contributions. *)
Lemma accumulation_loop_spec :
  0 <= cdiv K BK ->
  match accumulation_loop a_buf b_buf M N K
          stride_am stride_ak stride_bk stride_bn META pid with
  | Some st' =>
      (forall s, 0 <= s < cdiv K BK -> a_ok s /\ b_ok s) /\
      at_step (cdiv K BK) st' /\
      forall i j, accumulator st' i j
                  = acc_lane (seqZ 0 (cdiv K BK)) acc_zero i j
  | None => ~ (forall s, 0 <= s < cdiv K BK -> a_ok s /\ b_ok s)
  end.
Proof.
  intros Hn. unfold accumulation_loop.
  pose proof (loop_spec (Z.to_nat (cdiv K BK)) 0 _ loop_init_at_step) as Hl.
  rewrite Z2Nat.id in Hl by done.
  destruct (for_each _ _ _); [|by rewrite Z.add_0_l in Hl].
  by rewrite Z.add_0_l in Hl.
Qed.
End LoopFacts.

(** ** Sums in exact arithmetic *)

Lemma fold_left_id {A B : Type} (f : A -> B -> A) (l : list B) (x : A) :
  (forall y k, k ∈ l -> f y k = y) -> fold_left f l x = x.
Proof.
  revert x. induction l as [|k l IH]; intros x Hf; [done|].
  simpl. rewrite (Hf x k ltac:(left)). apply IH. intros; apply Hf. by right.
Qed.

Lemma fold_left_fmap {A B C : Type} (f : A -> C -> A) (h : B -> C) (l : list B) (x : A) :
  fold_left f (h <$> l) x = fold_left (fun y k => f y (h k)) l x.
Proof. revert x. induction l as [|k l IH]; intros x; [done|]. simpl. apply IH. Qed.

Section Sums.
Context {In Acc Out : Type} `{!Arith In Acc Out} `{!ArithLaws In Acc Out}.

(** The sum of [g k] for [lo <= k < lo + len], from the left. *)
Definition sum_range (g : Z -> Acc) (lo len : Z) : Acc :=
  fold_left (fun t k => acc_add t (g k)) (seqZ lo len) acc_zero.

Lemma fold_add_start (g : Z -> Acc) (l : list Z) (x : Acc) :
  fold_left (fun t k => acc_add t (g k)) l x
  = acc_add x (fold_left (fun t k => acc_add t (g k)) l acc_zero).
Proof.
  revert x. induction l as [|k l IH]; intros x; simpl.
  - by rewrite acc_add_0_r.
  - rewrite IH, (IH (acc_add acc_zero (g k))).
    by rewrite acc_add_0_l, acc_add_assoc.
Qed.

Lemma sum_range_nil g lo len : len <= 0 -> sum_range g lo len = acc_zero.
Proof. intros. unfold sum_range. by rewrite seqZ_nil. Qed.

Lemma sum_range_app g lo a b :
  0 <= a -> 0 <= b ->
  sum_range g lo (a + b) = acc_add (sum_range g lo a) (sum_range g (lo + a) b).
Proof.
  intros Ha Hb. unfold sum_range.
  rewrite seqZ_app, fold_left_app by done. apply fold_add_start.
Qed.

Lemma sum_range_shift (g : Z -> Acc) lo len :
  fold_left (fun t kk => acc_add t (g (lo + kk))) (seqZ 0 len) acc_zero
  = sum_range g lo len.
Proof.
  unfold sum_range.
  rewrite <- (fold_left_fmap (fun t k => acc_add t (g k)) (Z.add lo)).
  by rewrite fmap_add_seqZ, Z.add_0_r.
Qed.

(** Summing block after block, each block cut at [K], is summing up to
    [K]. *)
Lemma blocked_sum (g : Z -> Acc) (BK K : Z) (n : nat) :
  0 < BK -> 0 <= K ->
  fold_left (fun y s => acc_add y (sum_range g (s * BK) (Z.min BK (K - s * BK))))
    (seqZ 0 (Z.of_nat n)) acc_zero
  = sum_range g 0 (Z.min (Z.of_nat n * BK) K).
Proof.
  intros HBK HK. induction n as [|n IH].
  - simpl. by rewrite sum_range_nil by lia.
  - rewrite seqZ_S, fold_left_app, IH. simpl. rewrite Z.add_0_l.
    destruct (decide (K <= Z.of_nat n * BK)) as [Hle|Hgt].
    + rewrite (sum_range_nil _ (Z.of_nat n * BK)) by lia.
      rewrite acc_add_0_r. f_equal. lia.
    + replace (Z.min (Z.of_nat n * BK) K) with (Z.of_nat n * BK) by lia.
      rewrite <- (Z.add_0_l (Z.of_nat n * BK)) at 2.
      rewrite <- sum_range_app by lia. f_equal. lia.
Qed.

(** A block whose lanes past [m] hold zeros adds what its first [m]
    lanes add. *)
Lemma masked_block_sum (a b a' b' : Z -> In) (BK m : Z) :
  (forall kk, 0 <= kk < BK -> kk < m -> a kk = a' kk /\ b kk = b' kk) ->
  (forall kk, 0 <= kk < BK -> m <= kk -> a kk = in_zero /\ b kk = in_zero) ->
  fold_left (fun t kk => acc_add t (in_mul (a kk) (b kk))) (seqZ 0 BK) acc_zero
  = fold_left (fun t kk => acc_add t (in_mul (a' kk) (b' kk)))
      (seqZ 0 (Z.min BK m)) acc_zero.
Proof.
  intros Hlo Hhi.
  destruct (decide (Z.min BK m <= 0)) as [Hle|Hgt].
  - rewrite (seqZ_nil 0 (Z.min BK m)) by done. simpl.
    destruct (decide (BK <= 0)); [by rewrite seqZ_nil|].
    apply fold_left_id. intros y kk Hkk%elem_of_seqZ.
    destruct (Hhi kk) as [-> ->]; [lia ..|].
    by rewrite in_mul_0_0, acc_add_0_r.
  - replace BK with (Z.min BK m + (BK - Z.min BK m)) at 1 by lia.
    rewrite seqZ_app, fold_left_app by lia.
    rewrite (fold_left_id _ (seqZ _ (BK - Z.min BK m))).
    + apply fold_left_ext_in. intros y kk Hkk%elem_of_seqZ.
      destruct (Hlo kk) as [-> ->]; [lia ..|]. done.
    + intros y kk Hkk%elem_of_seqZ.
      destruct (Hhi kk) as [-> ->]; [lia ..|].
      by rewrite in_mul_0_0, acc_add_0_r.
Qed.
End Sums.

(** ** One program instance *)

(** Every element of a [rows x cols] view with strides [s0], [s1] lies
    inside the storage. *)
Definition view_ok {T : Type} (buf : list T) (rows cols s0 s1 : Z) : Prop :=
  forall i j, 0 <= i < rows -> 0 <= j < cols ->
    in_bounds buf (i * s0 + j * s1) = true.

(** Distinct elements of the view have distinct addresses. *)
Definition view_inj (rows cols s0 s1 : Z) : Prop :=
  forall i j i' j', 0 <= i < rows -> 0 <= j < cols ->
    0 <= i' < rows -> 0 <= j' < cols ->
    i * s0 + j * s1 = i' * s0 + j' * s1 -> i = i' /\ j = j'.

(** No offset that the kernel forms for an element of the view leaves
    the 32-bit range: the products of an index by its stride, and their
    sum. *)
Definition view_int32 (rows cols s0 s1 : Z) : Prop :=
  forall i j, 0 <= i < rows -> 0 <= j < cols ->
    int32 (i * s0) /\ int32 (j * s1) /\ int32 (i * s0 + j * s1).

Lemma wrap32_id x : int32 x -> wrap32 x = x.
Proof. unfold int32, wrap32. intros Hx. rewrite Z.mod_small; lia. Qed.

Lemma mul_arg_exact idx arg : int32 (idx * arg) -> mul_arg idx arg = idx * arg.
Proof.
  intros Hx. unfold mul_arg. destruct (int32b arg); [by apply wrap32_id | done].
Qed.

Lemma add_args_exact arg1 arg2 x y :
  int32 (x + y) -> add_args arg1 arg2 x y = x + y.
Proof.
  intros Hx. unfold add_args.
  destruct (int32b arg1 && int32b arg2); [by apply wrap32_id | done].
Qed.

(** Non-negative strides over a storage of at most 2^31 elements. *)
Lemma view_ok_int32 {T} (buf : list T) rows cols s0 s1 :
  0 <= s0 -> 0 <= s1 -> Z.of_nat (length buf) <= 2147483648 ->
  (forall i j, 0 <= i < rows -> 0 <= j < cols ->
     in_bounds buf (i * s0 + j * s1) = true) ->
  view_int32 rows cols s0 s1.
Proof.
  intros H0 H1 Hlen Hok i j Hi Hj.
  specialize (Hok i j Hi Hj). apply in_bounds_spec in Hok.
  unfold int32. nia.
Qed.

Section ProgramFacts.
Context {In Acc Out : Type} `{!Arith In Acc Out}.
Variables (a_buf b_buf : list In).
Variables (M N K : Z).
Variables (stride_am stride_ak stride_bk stride_bn stride_cm stride_cn : Z).
Variable (META : Config).
Variable (ACTIVATION : string).
Variable (pid : Z).

Local Abbreviation BM := (BLOCK_SIZE_M META).
Local Abbreviation BN := (BLOCK_SIZE_N META).
Local Abbreviation BK := (BLOCK_SIZE_K META).
Local Abbreviation pm := (pid_m M N META pid).
Local Abbreviation pn := (pid_n M N META pid).

Hypothesis Hcfg : valid_config META = true.
Hypothesis HM : 0 <= M.
Hypothesis HN : 0 <= N.
Hypothesis HK : 0 <= K.
Hypothesis Hpid : 0 <= pid < grid M N META.

(** Specification side: what [activation] does to one element. *)
Definition activate (x : Acc) : Acc :=
  if String.eqb ACTIVATION "leaky_relu" then leaky_relu x else x.

Lemma activation_lane (acc : block Acc) i j :
  activation ACTIVATION acc i j = activate (acc i j).
Proof. unfold activation, activate. by destruct (String.eqb _ _). Qed.

(** Specification side: the element of the product at row [r] and column
    [c] of the two views ([reference] on raw storages and strides). *)
Definition tile_product (r c : Z) : Acc :=
  fold_left (fun s k => acc_add s
     (in_mul (default in_zero (a_buf !! Z.to_nat (r * stride_am + k * stride_ak)))
             (default in_zero (b_buf !! Z.to_nat (k * stride_bk + c * stride_bn)))))
    (seqZ 0 K) acc_zero.

(** What the program stores at lane [(i, j)]. *)
Definition stored_lane (i j : Z) : Out :=
  to_out (activate
    (acc_lane a_buf b_buf M N K stride_am stride_ak stride_bk stride_bn META pid
       (seqZ 0 (cdiv K BK)) acc_zero i j)).

Lemma tile_in_grid :
  0 <= pm < cdiv M BM /\ 0 <= pn < cdiv N BN /\
  pm * BM < M /\ pn * BN < N /\ 0 < M /\ 0 < N.
Proof.
  destruct (valid_config_pos _ Hcfg) as (HBM & HBN & HBK & HG).
  destruct (grid_mapping_range M N META pid HM HN HBM HBN HG Hpid)
    as (Hpm & Hpn & _).
  unfold num_pid_m in Hpm. unfold num_pid_n in Hpn.
  pose proof (tile_start_lt M BM pm HBM Hpm).
  pose proof (tile_start_lt N BN pn HBN Hpn).
  repeat split; try lia; nia.
Qed.

Lemma offs_am_range i : 0 <= offs_am M N META pid i < M.
Proof.
  destruct tile_in_grid as (_ & _ & _ & _ & ? & _).
  unfold offs_am. apply Z.mod_pos_bound. lia.
Qed.

Lemma offs_bn_range j : 0 <= offs_bn M N META pid j < N.
Proof.
  destruct tile_in_grid as (_ & _ & _ & _ & _ & ?).
  unfold offs_bn. apply Z.mod_pos_bound. lia.
Qed.

(** On a lane the store keeps, the wrapped offsets are the plain ones. *)
Lemma c_mask_spec i j :
  0 <= i -> 0 <= j ->
  c_mask M N META pid i j = true <->
  (0 <= offs_cm M N META pid i < M /\ 0 <= offs_cn M N META pid j < N).
Proof.
  destruct tile_in_grid as (? & ? & _).
  destruct (valid_config_pos _ Hcfg) as (HBM & HBN & _).
  unfold c_mask, offs_cm, offs_cn. intros Hi Hj. nia.
Qed.

Lemma kept_lane_unwrapped i j :
  0 <= i -> 0 <= j -> c_mask M N META pid i j = true ->
  offs_am M N META pid i = offs_cm M N META pid i /\
  offs_bn M N META pid j = offs_cn M N META pid j.
Proof.
  intros Hi Hj Hm. apply c_mask_spec in Hm as [Hr Hc]; [|done ..].
  unfold offs_am, offs_bn, offs_cm, offs_cn in *.
  by rewrite !Z.mod_small.
Qed.

(** An enabled lane of a load reads the reduction index [s * BK + kk],
    which is below [K]. *)
Lemma k_mask_spec s kk :
  0 <= s -> 0 <= kk -> k_mask K META s kk = true ->
  0 <= kk < K /\ 0 <= s * BK + kk < K /\ (s = 0 \/ 0 <= BK < K).
Proof.
  destruct (valid_config_pos _ Hcfg) as (HBM & HBN & HBK & HG).
  unfold k_mask, offs_k. intros Hs Hkk Hm. nia.
Qed.

(** When no offset of the view of A leaves the 32-bit range, an enabled
    lane of step [s] reads the address of the element at its (wrapped)
    row and at the reduction index [s * BK + kk]; the same for B. *)
Lemma a_address s i kk :
  view_int32 M K stride_am stride_ak ->
  0 <= s -> 0 <= kk -> k_mask K META s kk = true ->
  a_ptrs0 M N stride_am stride_ak META pid i kk + s * mul_arg BK stride_ak
  = offs_am M N META pid i * stride_am + (s * BK + kk) * stride_ak.
Proof.
  intros H32 Hs Hkk Hm.
  destruct (k_mask_spec s kk Hs Hkk Hm) as (Hkk' & Hk & Hstep).
  pose proof (offs_am_range i) as Hr.
  destruct (H32 (offs_am M N META pid i) kk Hr Hkk') as (H1 & H2 & H3).
  unfold a_ptrs0, offs_k.
  rewrite !mul_arg_exact, add_args_exact by done.
  destruct Hstep as [-> | HBK]; [ring|].
  destruct (H32 (offs_am M N META pid i) BK Hr HBK) as (_ & H4 & _).
  rewrite mul_arg_exact by done. ring.
Qed.

Lemma b_address s kk j :
  view_int32 K N stride_bk stride_bn ->
  0 <= s -> 0 <= kk -> k_mask K META s kk = true ->
  b_ptrs0 M N stride_bk stride_bn META pid kk j + s * mul_arg BK stride_bk
  = (s * BK + kk) * stride_bk + offs_bn M N META pid j * stride_bn.
Proof.
  intros H32 Hs Hkk Hm.
  destruct (k_mask_spec s kk Hs Hkk Hm) as (Hkk' & Hk & Hstep).
  pose proof (offs_bn_range j) as Hc.
  destruct (H32 kk (offs_bn M N META pid j) Hkk' Hc) as (H1 & H2 & H3).
  unfold b_ptrs0, offs_k.
  rewrite !mul_arg_exact, add_args_exact by done.
  destruct Hstep as [-> | HBK]; [ring|].
  destruct (H32 BK (offs_bn M N META pid j) HBK Hc) as (H4 & _ & _).
  rewrite mul_arg_exact by done. ring.
Qed.

(** When no offset of the view of C leaves the 32-bit range, a lane the
    store keeps is written at the address of its element. *)
Lemma c_address i j :
  view_int32 M N stride_cm stride_cn ->
  0 <= i -> 0 <= j -> c_mask M N META pid i j = true ->
  c_ptrs M N stride_cm stride_cn META pid i j
  = offs_cm M N META pid i * stride_cm + offs_cn M N META pid j * stride_cn.
Proof.
  intros H32 Hi Hj Hm. apply c_mask_spec in Hm as [Hr Hc]; [|done ..].
  destruct (H32 _ _ Hr Hc) as (H1 & H2 & _).
  unfold c_ptrs. by rewrite !mul_arg_exact.
Qed.

(** The loads of every step stay inside views that are inside their
    storages. *)
Lemma loads_ok :
  view_int32 M K stride_am stride_ak ->
  view_int32 K N stride_bk stride_bn ->
  view_ok a_buf M K stride_am stride_ak ->
  view_ok b_buf K N stride_bk stride_bn ->
  forall s, 0 <= s < cdiv K BK ->
    a_ok a_buf M N K stride_am stride_ak META pid s /\
    b_ok b_buf M N K stride_bk stride_bn META pid s.
Proof.
  intros Ha32 Hb32 Ha Hb s Hs.
  split.
  - intros i kk Hi Hkk Hm.
    rewrite a_address by (done || lia).
    apply Ha; [apply offs_am_range | by apply k_mask_spec; [lia ..|]].
  - intros kk j Hkk Hj Hm.
    rewrite b_address by (done || lia).
    apply Hb; [by apply k_mask_spec; [lia ..|] | apply offs_bn_range].
Qed.

(** Whenever the program returns, the storage of C keeps its length and
    changes only at addresses of elements [(r, c)] of this program's
    tile with [r < M] and [c < N]. *)
Lemma matmul_kernel_frame (c_buf c' : list Out) :
  matmul_kernel a_buf b_buf M N K stride_am stride_ak stride_bk stride_bn
    stride_cm stride_cn META ACTIVATION pid c_buf = Some c' ->
  length c' = length c_buf /\
  (view_int32 M N stride_cm stride_cn ->
   forall p : nat,
    (forall r c, pm * BM <= r < pm * BM + BM -> r < M ->
                 pn * BN <= c < pn * BN + BN -> c < N ->
                 stride_cm * r + stride_cn * c <> Z.of_nat p) ->
    c' !! p = c_buf !! p).
Proof.
  unfold matmul_kernel. destruct (accumulation_loop _ _ _ _ _ _ _ _ _ _ _) as [st|];
    [|done].
  unfold store. intros Hrun. split; [by eapply store_lanes_length|].
  intros H32 p Hp. eapply store_lanes_frame; [exact Hrun|].
  intros [i j] [Hi Hj]%elem_of_lanes Hm. simpl in *.
  rewrite c_address by (done || lia).
  apply c_mask_spec in Hm as [Hr Hc]; [|lia ..].
  rewrite (Z.mul_comm _ stride_cm), (Z.mul_comm _ stride_cn).
  apply Hp; unfold offs_cm, offs_cn in *; lia.
Qed.

(** With the three views inside their storages the program returns, and
    every kept lane ends up in C when distinct elements of C have
    distinct addresses. *)
Lemma matmul_kernel_effect (c_buf : list Out) :
  view_int32 M K stride_am stride_ak ->
  view_int32 K N stride_bk stride_bn ->
  view_int32 M N stride_cm stride_cn ->
  view_ok a_buf M K stride_am stride_ak ->
  view_ok b_buf K N stride_bk stride_bn ->
  view_ok c_buf M N stride_cm stride_cn ->
  exists c',
    matmul_kernel a_buf b_buf M N K stride_am stride_ak stride_bk stride_bn
      stride_cm stride_cn META ACTIVATION pid c_buf = Some c' /\
    (view_inj M N stride_cm stride_cn ->
     forall i j, 0 <= i < BM -> 0 <= j < BN ->
       c_mask M N META pid i j = true ->
       c' !! Z.to_nat (c_ptrs M N stride_cm stride_cn META pid i j)
       = Some (stored_lane i j)).
Proof.
  intros Ha32 Hb32 Hc32 Ha Hb Hc.
  destruct (valid_config_pos _ Hcfg) as (HBM & HBN & HBK & HG).
  pose proof (accumulation_loop_spec a_buf b_buf M N K
    stride_am stride_ak stride_bk stride_bn META pid
    (cdiv_nonneg K BK HK HBK)) as Hloop.
  unfold matmul_kernel.
  destruct (accumulation_loop _ _ _ _ _ _ _ _ _ _ _) as [st|].
  2:{ exfalso. apply Hloop. by apply loads_ok. }
  destruct Hloop as (_ & _ & Hacc).
  unfold store.
  destruct (store_lanes_ok
    (c_ptrs M N stride_cm stride_cn META pid)
    (fun i j => to_out (activation ACTIVATION (accumulator st) i j))
    (c_mask M N META pid) (lanes BM BN) c_buf) as [c' Hrun].
  { intros [i j] [Hi Hj]%elem_of_lanes Hm. simpl in *.
    rewrite c_address by (done || lia).
    apply c_mask_spec in Hm as [Hr Hcc]; [|lia ..].
    by apply Hc. }
  exists c'. split; [exact Hrun|].
  intros Hinj i j Hi Hj Hm.
  pose proof (store_lanes_written _ _ _ _ _ _ (i, j) Hrun) as Hw.
  simpl in Hw. rewrite Hw.
  - unfold stored_lane. by rewrite activation_lane, Hacc.
  - intros [i1 j1] [i2 j2] [Hi1 Hj1]%elem_of_lanes [Hi2 Hj2]%elem_of_lanes.
    simpl. intros Hm1 Hm2 Hp.
    rewrite !c_address in Hp by (done || lia).
    apply c_mask_spec in Hm1 as [Hr1 Hc1]; [|lia ..].
    apply c_mask_spec in Hm2 as [Hr2 Hc2]; [|lia ..].
    destruct (Hinj (offs_cm M N META pid i1) (offs_cn M N META pid j1)
                (offs_cm M N META pid i2) (offs_cn M N META pid j2))
      as [Er Ec]; [done .. | lia |].
    unfold offs_cm, offs_cn in Er, Ec.
    assert (i1 = i2) as -> by lia. assert (j1 = j2) as -> by lia. done.
  - by apply elem_of_lanes.
  - done.
Qed.
End ProgramFacts.

(** ** The accumulator in exact arithmetic *)

Section Exact.
Context {In Acc Out : Type} `{!Arith In Acc Out} `{!ArithLaws In Acc Out}.
Variables (a_buf b_buf : list In).
Variables (M N K : Z).
Variables (stride_am stride_ak stride_bk stride_bn : Z).
Variable (META : Config).
Variable (pid : Z).

Local Abbreviation BK := (BLOCK_SIZE_K META).

Hypothesis Hcfg : valid_config META = true.
Hypothesis HM : 0 <= M.
Hypothesis HN : 0 <= N.
Hypothesis HK : 0 <= K.
Hypothesis Hpid : 0 <= pid < grid M N META.
Hypothesis Ha32 : view_int32 M K stride_am stride_ak.
Hypothesis Hb32 : view_int32 K N stride_bk stride_bn.

(** The contribution of step [s]: the products of the elements of the
    views at the reduction indices [s * BK <= k < min (s * BK + BK) K],
    and nothing for the masked lanes. *)
Lemma block_sum_truncated s i j :
  0 <= s ->
  block_sum a_buf b_buf M N K stride_am stride_ak stride_bk stride_bn META pid s i j
  = sum_range (fun k => in_mul
       (default in_zero (a_buf !! Z.to_nat
          (offs_am M N META pid i * stride_am + k * stride_ak)))
       (default in_zero (b_buf !! Z.to_nat
          (k * stride_bk + offs_bn M N META pid j * stride_bn))))
      (s * BK) (Z.min BK (K - s * BK)).
Proof.
  intros Hs. unfold block_sum. rewrite <- sum_range_shift.
  apply (masked_block_sum
    (fun kk => a_lane a_buf M N K stride_am stride_ak META pid s i kk)
    (fun kk => b_lane b_buf M N K stride_bk stride_bn META pid s kk j)).
  - intros kk Hkk Hlt. unfold a_lane, b_lane.
    assert (k_mask K META s kk = true) as Hm
      by (unfold k_mask, offs_k; by apply Z.ltb_lt).
    rewrite Hm.
    rewrite (a_address M N K stride_am stride_ak META pid Hcfg HM HN HK Hpid)
      by (done || lia).
    rewrite (b_address M N K stride_bk stride_bn META pid Hcfg HM HN HK Hpid)
      by (done || lia).
    split; do 3 f_equal; ring.
  - intros kk Hkk Hge. unfold a_lane, b_lane, k_mask, offs_k.
    by rewrite (proj2 (Z.ltb_ge _ _) Hge).
Qed.

(** After the loop, every lane of the accumulator holds the product of
    its (wrapped) row of A with its (wrapped) column of B. *)
Lemma acc_lane_exact i j :
  acc_lane a_buf b_buf M N K stride_am stride_ak stride_bk stride_bn META pid
    (seqZ 0 (cdiv K BK)) acc_zero i j
  = tile_product a_buf b_buf K stride_am stride_ak stride_bk stride_bn
      (offs_am M N META pid i) (offs_bn M N META pid j).
Proof.
  destruct (valid_config_pos _ Hcfg) as (_ & _ & HBK & _).
  unfold acc_lane.
  erewrite fold_left_ext_in;
    [|intros y s Hs%elem_of_seqZ; by rewrite block_sum_truncated by lia].
  rewrite <- (Z2Nat.id (cdiv K BK)) by (by apply cdiv_nonneg).
  rewrite blocked_sum by done.
  rewrite Z2Nat.id by (by apply cdiv_nonneg).
  pose proof (cdiv_bounds K BK HBK).
  by replace (Z.min (cdiv K BK * BK) K) with K by lia.
Qed.
End Exact.

(** ** Programs over storages that agree on the logical views *)

(** Two storages hold the same elements of a view. *)
Definition agree_on {T : Type} (buf1 buf2 : list T) (rows cols s0 s1 : Z) : Prop :=
  forall i j, 0 <= i < rows -> 0 <= j < cols ->
    buf1 !! Z.to_nat (i * s0 + j * s1) = buf2 !! Z.to_nat (i * s0 + j * s1).

Lemma in_bounds_agree {T} (buf1 buf2 : list T) p :
  buf1 !! Z.to_nat p = buf2 !! Z.to_nat p -> in_bounds buf1 p = in_bounds buf2 p.
Proof.
  intros Heq. apply Bool.eq_iff_eq_true. by rewrite !in_bounds_lookup, Heq.
Qed.

Lemma for_each_ext {X S : Type} (f g : X -> S -> option S) (xs : list X) (st : S) :
  (forall x st', x ∈ xs -> f x st' = g x st') -> for_each f xs st = for_each g xs st.
Proof.
  revert st. induction xs as [|x xs IH]; intros st Hfg; [done|].
  simpl. rewrite (Hfg x st ltac:(left)).
  destruct (g x st); [|done]. apply IH. intros; apply Hfg. by right.
Qed.

Section Agreement.
Context {In Acc Out : Type} `{!Arith In Acc Out}.
Variables (a1 b1 a2 b2 : list In).
Variables (M N K : Z).
Variables (stride_am stride_ak stride_bk stride_bn stride_cm stride_cn : Z).
Variable (META : Config).
Variable (ACTIVATION : string).
Variable (pid : Z).

Local Abbreviation BM := (BLOCK_SIZE_M META).
Local Abbreviation BN := (BLOCK_SIZE_N META).
Local Abbreviation BK := (BLOCK_SIZE_K META).

Hypothesis Hcfg : valid_config META = true.
Hypothesis HM : 0 <= M.
Hypothesis HN : 0 <= N.
Hypothesis HK : 0 <= K.
Hypothesis Hpid : 0 <= pid < grid M N META.
Hypothesis Ha32 : view_int32 M K stride_am stride_ak.
Hypothesis Hb32 : view_int32 K N stride_bk stride_bn.
Hypothesis Ha : agree_on a1 a2 M K stride_am stride_ak.
Hypothesis Hb : agree_on b1 b2 K N stride_bk stride_bn.

(** An enabled lane of a load addresses an element of the logical view:
    its row (column) is wrapped into range, its reduction index is the
    plain [s * BK + kk]. *)
Lemma a_lane_address s i kk :
  0 <= s -> 0 <= kk -> k_mask K META s kk = true ->
  a_ptrs0 M N stride_am stride_ak META pid i kk + s * mul_arg BK stride_ak
  = offs_am M N META pid i * stride_am + (s * BK + kk) * stride_ak /\
  0 <= offs_am M N META pid i < M /\ 0 <= s * BK + kk < K.
Proof.
  intros Hs Hkk Hm.
  split; [by apply (a_address M N K)|].
  split; [by apply offs_am_range | by apply k_mask_spec].
Qed.

Lemma b_lane_address s kk j :
  0 <= s -> 0 <= kk -> k_mask K META s kk = true ->
  b_ptrs0 M N stride_bk stride_bn META pid kk j + s * mul_arg BK stride_bk
  = (s * BK + kk) * stride_bk + offs_bn M N META pid j * stride_bn /\
  0 <= s * BK + kk < K /\ 0 <= offs_bn M N META pid j < N.
Proof.
  intros Hs Hkk Hm.
  split; [by apply (b_address M N K)|].
  split; [by apply k_mask_spec | by apply offs_bn_range].
Qed.

Lemma loads_ok_agree s :
  0 <= s ->
  (a_ok a1 M N K stride_am stride_ak META pid s /\
   b_ok b1 M N K stride_bk stride_bn META pid s) <->
  (a_ok a2 M N K stride_am stride_ak META pid s /\
   b_ok b2 M N K stride_bk stride_bn META pid s).
Proof.
  intros Hs.
  assert (HA : forall i kk, 0 <= kk -> k_mask K META s kk = true ->
    in_bounds a1 (a_ptrs0 M N stride_am stride_ak META pid i kk + s * mul_arg BK stride_ak)
    = in_bounds a2 (a_ptrs0 M N stride_am stride_ak META pid i kk + s * mul_arg BK stride_ak)).
  { intros i kk Hkk Hm. apply in_bounds_agree.
    destruct (a_lane_address s i kk Hs Hkk Hm) as (-> & ? & ?). by apply Ha. }
  assert (HB : forall kk j, 0 <= kk -> k_mask K META s kk = true ->
    in_bounds b1 (b_ptrs0 M N stride_bk stride_bn META pid kk j + s * mul_arg BK stride_bk)
    = in_bounds b2 (b_ptrs0 M N stride_bk stride_bn META pid kk j + s * mul_arg BK stride_bk)).
  { intros kk j Hkk Hm. apply in_bounds_agree.
    destruct (b_lane_address s kk j Hs Hkk Hm) as (-> & ? & ?). by apply Hb. }
  unfold a_ok, b_ok.
  split; intros [H1 H2]; split; intros x y Hx Hy Hm.
  - rewrite <- HA by (done || lia). by apply H1.
  - rewrite <- HB by (done || lia). by apply H2.
  - rewrite HA by (done || lia). by apply H1.
  - rewrite HB by (done || lia). by apply H2.
Qed.

Lemma acc_lane_agree steps x i j :
  (forall s, s ∈ steps -> 0 <= s) ->
  acc_lane a1 b1 M N K stride_am stride_ak stride_bk stride_bn META pid steps x i j
  = acc_lane a2 b2 M N K stride_am stride_ak stride_bk stride_bn META pid steps x i j.
Proof.
  intros Hsteps. unfold acc_lane.
  apply fold_left_ext_in. intros y s Hs%Hsteps. f_equal.
  unfold block_sum. apply fold_left_ext_in.
  intros t kk Hkk%elem_of_seqZ. f_equal.
  unfold a_lane, b_lane.
  destruct (k_mask K META s kk) eqn:Hm; [|done].
  destruct (a_lane_address s i kk Hs ltac:(lia) Hm) as (-> & ? & ?).
  destruct (b_lane_address s kk j Hs ltac:(lia) Hm) as (-> & ? & ?).
  by rewrite Ha, Hb.
Qed.

(** The program cannot tell the two pairs of storages apart. *)
Lemma matmul_kernel_agree (c_buf : list Out) :
  matmul_kernel a1 b1 M N K stride_am stride_ak stride_bk stride_bn
    stride_cm stride_cn META ACTIVATION pid c_buf
  = matmul_kernel a2 b2 M N K stride_am stride_ak stride_bk stride_bn
      stride_cm stride_cn META ACTIVATION pid c_buf.
Proof.
  destruct (valid_config_pos _ Hcfg) as (_ & _ & HBK & _).
  pose proof (cdiv_nonneg K BK HK HBK) as Hn.
  pose proof (accumulation_loop_spec a1 b1 M N K
    stride_am stride_ak stride_bk stride_bn META pid Hn) as H1.
  pose proof (accumulation_loop_spec a2 b2 M N K
    stride_am stride_ak stride_bk stride_bn META pid Hn) as H2.
  unfold matmul_kernel.
  destruct (accumulation_loop a1 _ _ _ _ _ _ _ _ _ _) as [st1|],
           (accumulation_loop a2 _ _ _ _ _ _ _ _ _ _) as [st2|].
  - destruct H1 as (_ & _ & Hacc1). destruct H2 as (_ & _ & Hacc2).
    apply store_lanes_ext. intros [i j] _. simpl. split; [done|].
    intros _. split; [done|].
    rewrite !activation_lane, Hacc1, Hacc2. do 2 f_equal.
    apply acc_lane_agree. intros s Hs%elem_of_seqZ. lia.
  - exfalso. destruct H1 as (Hall & _). apply H2.
    intros s Hs. apply loads_ok_agree; [lia | by apply Hall].
  - exfalso. destruct H2 as (Hall & _). apply H1.
    intros s Hs. apply loads_ok_agree; [lia | by apply Hall].
  - done.
Qed.
End Agreement.

(** ** The whole launch *)

Lemma view_ok_length {T} (buf buf' : list T) rows cols s0 s1 :
  length buf' = length buf -> view_ok buf rows cols s0 s1 -> view_ok buf' rows cols s0 s1.
Proof.
  intros Hlen Hok i j Hi Hj. specialize (Hok i j Hi Hj).
  rewrite in_bounds_spec in *. by rewrite Hlen.
Qed.

Lemma launch_ext {T} n (P1 P2 : Z -> list T -> option (list T)) (buf : list T) :
  (forall pid buf', 0 <= pid < n -> P1 pid buf' = P2 pid buf') ->
  launch n P1 buf = launch n P2 buf.
Proof.
  intros Heq. unfold launch. apply for_each_ext.
  intros pid st Hpid%elem_of_seqZ. rewrite Heq by lia. done.
Qed.

Section Launch.
Context {In Acc Out : Type} `{!Arith In Acc Out}.
Variables (a_buf b_buf : list In).
Variables (M N K : Z).
Variables (stride_am stride_ak stride_bk stride_bn stride_cm stride_cn : Z).
Variable (META : Config).
Variable (ACTIVATION : string).

Local Abbreviation BM := (BLOCK_SIZE_M META).
Local Abbreviation BN := (BLOCK_SIZE_N META).
Local Abbreviation program :=
  (matmul_kernel a_buf b_buf M N K stride_am stride_ak stride_bk stride_bn
     stride_cm stride_cn META ACTIVATION).
Local Abbreviation step :=
  (fun pid (st : list Out * list Z) =>
     match program pid st.1 with
     | Some buf' => Some (buf', st.2 ++ [pid])
     | None => None
     end).

Hypothesis Hcfg : valid_config META = true.
Hypothesis HM : 0 <= M.
Hypothesis HN : 0 <= N.
Hypothesis HK : 0 <= K.
Hypothesis Ha32 : view_int32 M K stride_am stride_ak.
Hypothesis Hb32 : view_int32 K N stride_bk stride_bn.
Hypothesis Hc32 : view_int32 M N stride_cm stride_cn.

(** The launch touches no address outside the valid region of C. *)
Lemma programs_frame ps : forall (buf buf' : list Out) ran ran',
  (forall pid, pid ∈ ps -> 0 <= pid < grid M N META) ->
  for_each step ps (buf, ran) = Some (buf', ran') ->
  ran' = ran ++ ps /\ length buf' = length buf /\
  forall p : nat,
    (forall r c, 0 <= r < M -> 0 <= c < N ->
       stride_cm * r + stride_cn * c <> Z.of_nat p) ->
    buf' !! p = buf !! p.
Proof.
  induction ps as [|pid ps IH]; intros buf buf' ran ran' Hps Hrun.
  - simpl in Hrun. inversion Hrun. by rewrite app_nil_r.
  - simpl in Hrun.
    destruct (program pid buf) as [buf1|] eqn:Hp; [|done].
    assert (Hpid : 0 <= pid < grid M N META) by (apply Hps; left).
    destruct (matmul_kernel_frame _ _ _ _ _ _ _ _ _ _ _ _ _ _
                Hcfg HM HN Hpid _ _ Hp) as [Hlen Hfr].
    destruct (tile_in_grid M N META pid Hcfg HM HN Hpid) as (Hpm & Hpn & _).
    destruct (valid_config_pos _ Hcfg) as (HBM & HBN & _).
    destruct (IH buf1 buf' _ _ ltac:(intros; apply Hps; by right) Hrun)
      as (-> & Hlen' & Hfr').
    split; [by rewrite <- app_assoc|]. split; [congruence|].
    intros p Hout. rewrite Hfr' by done. apply Hfr; [done|].
    intros r c Hr1 Hr2 Hc1 Hc2. apply Hout; nia.
Qed.

(** With the views inside their storages, no program of the launch
    faults. *)
Lemma programs_return ps : forall (buf : list Out) ran,
  view_ok a_buf M K stride_am stride_ak ->
  view_ok b_buf K N stride_bk stride_bn ->
  (forall pid, pid ∈ ps -> 0 <= pid < grid M N META) ->
  view_ok buf M N stride_cm stride_cn ->
  exists buf',
    for_each step ps (buf, ran) = Some (buf', ran ++ ps) /\
    length buf' = length buf.
Proof.
  intros buf ran Ha Hb. revert buf ran.
  induction ps as [|pid ps IH]; intros buf ran Hps Hc.
  - exists buf. by rewrite app_nil_r.
  - assert (Hpid : 0 <= pid < grid M N META) by (apply Hps; left).
    destruct (matmul_kernel_effect a_buf b_buf M N K
      stride_am stride_ak stride_bk stride_bn stride_cm stride_cn
      META ACTIVATION pid Hcfg HM HN HK Hpid buf Ha32 Hb32 Hc32 Ha Hb Hc)
      as (buf1 & Hp & _).
    destruct (matmul_kernel_frame _ _ _ _ _ _ _ _ _ _ _ _ _ _
                Hcfg HM HN Hpid _ _ Hp) as [Hlen _].
    destruct (IH buf1 (ran ++ [pid]) ltac:(intros; apply Hps; by right)
                (view_ok_length _ _ _ _ _ _ Hlen Hc)) as (buf' & Hrun & Hlen').
    exists buf'. split; [|congruence].
    simpl. rewrite Hp. simpl. by rewrite Hrun, <- app_assoc.
Qed.

Context `{!ArithLaws In Acc Out}.

(** Specification side: the value of C at [(r, c)], the product,
    activated, narrowed. *)
Definition expected (r c : Z) : Out :=
  to_out (activate ACTIVATION
    (tile_product a_buf b_buf K stride_am stride_ak stride_bk stride_bn r c)).

Hypothesis Ha : view_ok a_buf M K stride_am stride_ak.
Hypothesis Hb : view_ok b_buf K N stride_bk stride_bn.
Hypothesis Hinj : view_inj M N stride_cm stride_cn.

Lemma programs_run ps : forall (buf : list Out) ran,
  (forall pid, pid ∈ ps -> 0 <= pid < grid M N META) ->
  view_ok buf M N stride_cm stride_cn ->
  exists buf',
    for_each step ps (buf, ran) = Some (buf', ran ++ ps) /\
    forall r c, 0 <= r < M -> 0 <= c < N ->
      ((exists pid, pid ∈ ps /\
          pid_m M N META pid = r / BM /\ pid_n M N META pid = c / BN) \/
       buf !! Z.to_nat (r * stride_cm + c * stride_cn) = Some (expected r c)) ->
      buf' !! Z.to_nat (r * stride_cm + c * stride_cn) = Some (expected r c).
Proof.
  induction ps as [|pid ps IH]; intros buf ran Hps Hc.
  - exists buf. split; [by rewrite app_nil_r|].
    intros r c _ _ [(pid & Hin & _)|Hold]; [by apply elem_of_nil in Hin | done].
  - assert (Hpid : 0 <= pid < grid M N META) by (apply Hps; left).
    destruct (valid_config_pos _ Hcfg) as (HBM & HBN & HBK & HG).
    destruct (matmul_kernel_effect a_buf b_buf M N K
      stride_am stride_ak stride_bk stride_bn stride_cm stride_cn
      META ACTIVATION pid Hcfg HM HN HK Hpid buf Ha32 Hb32 Hc32 Ha Hb Hc)
      as (buf1 & Hp & Hw).
    destruct (matmul_kernel_frame _ _ _ _ _ _ _ _ _ _ _ _ _ _
                Hcfg HM HN Hpid _ _ Hp) as [Hlen Hfr].
    destruct (IH buf1 (ran ++ [pid]) ltac:(intros; apply Hps; by right)
                (view_ok_length _ _ _ _ _ _ Hlen Hc)) as (buf' & Hrun & Hval).
    exists buf'. split.
    { simpl. rewrite Hp. simpl. by rewrite Hrun, <- app_assoc. }
    intros r c Hr Hcc Hcase. apply Hval; [done ..|].
    pose proof (Z.div_mod r BM ltac:(lia)) as Hdr.
    pose proof (Z.mod_pos_bound r BM HBM) as Hmr.
    pose proof (Z.div_mod c BN ltac:(lia)) as Hdc.
    pose proof (Z.mod_pos_bound c BN HBN) as Hmc.
    destruct (decide (pid_m M N META pid = r / BM /\
                      pid_n M N META pid = c / BN)) as [[Er Ec]|Hother].
    + right.
      set (i := r - pid_m M N META pid * BM).
      set (j := c - pid_n M N META pid * BN).
      assert (Hi : 0 <= i < BM) by (unfold i; nia).
      assert (Hj : 0 <= j < BN) by (unfold j; nia).
      assert (Hor : offs_cm M N META pid i = r) by (unfold offs_cm, i; lia).
      assert (Hoc : offs_cn M N META pid j = c) by (unfold offs_cn, j; lia).
      assert (Hm : c_mask M N META pid i j = true).
      { apply c_mask_spec; [done .. | lia | lia |]. rewrite Hor, Hoc. lia. }
      specialize (Hw Hinj i j Hi Hj Hm).
      destruct (kept_lane_unwrapped M N META pid Hcfg HM HN Hpid i j
                  ltac:(lia) ltac:(lia) Hm) as [Ear Ebc].
      rewrite (c_address M N stride_cm stride_cn META pid Hcfg HM HN Hpid)
        in Hw by (done || lia).
      rewrite Hor, Hoc in Hw.
      rewrite Hw. unfold stored_lane, expected.
      rewrite acc_lane_exact by done. by rewrite Ear, Ebc, Hor, Hoc.
    + destruct Hcase as [(pid' & Hin & Er & Ec)|Hold].
      * left. exists pid'. split; [|done].
        apply elem_of_cons in Hin as [->|Hin]; [|done].
        exfalso. by apply Hother.
      * right. rewrite <- Hold. apply Hfr; [done|].
        intros r' c' Hr1 Hr2 Hc1 Hc2 Heq.
        pose proof (Hc r c Hr Hcc) as Hb0. apply in_bounds_spec in Hb0.
        destruct (tile_in_grid M N META pid Hcfg HM HN Hpid) as (Hpm & Hpn & _).
        destruct (Hinj r' c' r c) as [-> ->]; [nia | nia | done | done | lia |].
        apply Hother. split.
        -- apply (Z.div_unique r BM _ (r - pid_m M N META pid * BM)); lia.
        -- apply (Z.div_unique c BN _ (c - pid_n M N META pid * BN)); lia.
Qed.

(** With the views inside their storages, the launch of the whole grid
    returns, dispatches the program instances [0 .. grid - 1] once each,
    and leaves in C the product on every element of the valid region. *)
Lemma launch_correct (c_buf : list Out) :
  view_ok c_buf M N stride_cm stride_cn ->
  exists buf',
    launch (grid M N META) program c_buf
      = Some (buf', seqZ 0 (grid M N META)) /\
    forall r c, 0 <= r < M -> 0 <= c < N ->
      buf' !! Z.to_nat (r * stride_cm + c * stride_cn) = Some (expected r c).
Proof.
  intros Hc.
  destruct (valid_config_pos _ Hcfg) as (HBM & HBN & HBK & HG).
  destruct (programs_run (seqZ 0 (grid M N META)) c_buf []
              ltac:(intros pid Hpid%elem_of_seqZ; lia) Hc) as (buf' & Hrun & Hval).
  exists buf'. split; [exact Hrun|].
  intros r c Hr Hcc. apply Hval; [done ..|]. left.
  destruct (grid_mapping_onto M N META (r / BM) (c / BN) HM HN HBM HBN HG)
    as (pid & Hpid & Er & Ec).
  - by apply tile_of_index.
  - by apply tile_of_index.
  - exists pid. split; [apply elem_of_seqZ; lia | done].
Qed.
End Launch.

(** ** The host wrapper *)

Lemma tensor_wf_spec {T} (t : tensor T) :
  tensor_wf t = true ->
  0 <= shape0 t /\ 0 <= shape1 t /\
  view_ok (storage t) (shape0 t) (shape1 t) (stride0 t) (stride1 t).
Proof.
  unfold tensor_wf. rewrite !andb_true_iff, forallb_forall.
  intros [[H0 H1] Hall]. split; [lia|]. split; [lia|].
  intros i j Hi Hj. apply (Hall (i, j)), list_elem_of_In, elem_of_lanes. done.
Qed.

Lemma torch_empty_length {T} (fill : nat -> T) M N dt :
  length (storage (torch_empty fill M N dt)) = Z.to_nat (M * N).
Proof. simpl. by rewrite length_map, length_seq. Qed.

Lemma torch_empty_view_ok {T} (fill : nat -> T) M N dt :
  0 <= M -> 0 <= N ->
  view_ok (storage (torch_empty fill M N dt)) M N (Z.max N 1) 1.
Proof.
  intros HM HN i j Hi Hj.
  rewrite in_bounds_spec, torch_empty_length. nia.
Qed.

Lemma row_major_view_inj M N : view_inj M N (Z.max N 1) 1.
Proof.
  intros i j i' j' Hi Hj Hi' Hj' Heq.
  replace (Z.max N 1) with N in Heq by lia.
  assert (i = i'); [|split; [done | subst; lia]].
  destruct (Z.lt_trichotomy i i') as [Hlt|[Heq'|Hgt]]; [nia | done | nia].
Qed.

Lemma addressable_view_int32 {T} (t : tensor T) :
  tensor_wf t = true -> addressable t = true ->
  view_int32 (shape0 t) (shape1 t) (stride0 t) (stride1 t).
Proof.
  intros (_ & _ & Hok)%tensor_wf_spec.
  unfold addressable. rewrite !andb_true_iff. intros [[H0 H1] Hlen].
  apply (view_ok_int32 (storage t)); [lia .. | exact Hok].
Qed.

(** A fresh row-major tensor of at most 2^31 elements. *)
Lemma row_major_view_int32 M N :
  M * N <= 2147483648 -> view_int32 M N (Z.max N 1) 1.
Proof. intros Hlen i j Hi Hj. unfold int32. nia. Qed.

Section HostFacts.
Context {In Acc Out : Type} `{!Arith In Acc Out}.
Variables (META : Config) (fill : nat -> Out).
Variables (a b : tensor In) (activation : string).

Local Abbreviation M := (shape0 a).
Local Abbreviation K := (shape0 b).
Local Abbreviation N := (shape1 b).

(** The tensor the wrapper returns around the storage [buf]. *)
Definition result_tensor (buf : list Out) : tensor Out :=
  {| t_dtype := float16; shape0 := M; shape1 := N;
     stride0 := Z.max N 1; stride1 := 1; storage := buf |}.

Lemma matmul_rejects_shapes :
  shape1 a <> shape0 b ->
  matmul META fill a b activation = AssertionError "Incompatible dimensions".
Proof.
  intros Hne. unfold matmul.
  by rewrite (proj2 (Z.eqb_neq _ _) Hne).
Qed.

Lemma matmul_rejects_strides :
  shape1 a = shape0 b -> is_contiguous a = false ->
  matmul META fill a b activation = AssertionError "Matrix A must be contiguous".
Proof.
  intros Heq Hnc. unfold matmul.
  by rewrite (proj2 (Z.eqb_eq _ _) Heq), Hnc.
Qed.

Lemma matmul_passes :
  shape1 a = shape0 b -> is_contiguous a = true ->
  matmul META fill a b activation
  = match launch (grid M N META)
            (matmul_kernel (storage a) (storage b) M N K
               (stride0 a) (stride1 a) (stride0 b) (stride1 b)
               (Z.max N 1) 1 META activation)
            (storage (torch_empty fill M N float16)) with
    | Some (buf, ran) => Returned (result_tensor buf, ran)
    | None => MemoryFault
    end.
Proof.
  intros Heq Hc. unfold matmul.
  by rewrite (proj2 (Z.eqb_eq _ _) Heq), Hc.
Qed.

Hypothesis Hcfg : valid_config META = true.
Hypothesis Hwa : tensor_wf a = true.
Hypothesis Hwb : tensor_wf b = true.
Hypothesis Hshape : shape1 a = shape0 b.
Hypothesis Hcontig : is_contiguous a = true.
Hypothesis Haddr_a : addressable a = true.
Hypothesis Haddr_b : addressable b = true.
Hypothesis Hsize_c : shape0 a * shape1 b <= 2147483648.

(** A call that passes the two checks, on tensors whose offsets fit in
    32 bits, returns, having dispatched the program instances
    [0 .. grid - 1]. *)
Lemma matmul_returns :
  exists buf,
    matmul META fill a b activation
      = Returned (result_tensor buf, seqZ 0 (grid M N META)) /\
    length buf = Z.to_nat (M * N).
Proof.
  destruct (tensor_wf_spec a Hwa) as (HM & HK & Ha).
  destruct (tensor_wf_spec b Hwb) as (_ & HN & Hb).
  pose proof (addressable_view_int32 a Hwa Haddr_a) as Ha32.
  pose proof (addressable_view_int32 b Hwb Haddr_b) as Hb32.
  rewrite Hshape in Ha, Ha32.
  rewrite matmul_passes by done. unfold launch.
  destruct (programs_return (storage a) (storage b) M N K
    (stride0 a) (stride1 a) (stride0 b) (stride1 b) (Z.max N 1) 1
    META activation Hcfg HM HN ltac:(lia) Ha32 Hb32
    (row_major_view_int32 M N Hsize_c) (seqZ 0 (grid M N META))
    (storage (torch_empty fill M N float16)) [] Ha Hb
    ltac:(intros pid Hpid%elem_of_seqZ; lia)
    (torch_empty_view_ok fill M N float16 HM HN)) as (buf & Hrun & Hlen).
  exists buf. rewrite Hrun. split; [done|].
  by rewrite Hlen, torch_empty_length.
Qed.

Context `{!ArithLaws In Acc Out}.

(** In exact arithmetic the returned tensor holds the activated,
    narrowed product at every element. *)
Lemma matmul_product :
  exists buf,
    matmul META fill a b activation
      = Returned (result_tensor buf, seqZ 0 (grid M N META)) /\
    forall i j, 0 <= i < M -> 0 <= j < N ->
      buf !! Z.to_nat (i * Z.max N 1 + j * 1)
      = Some (to_out (activate activation (reference a b i j))).
Proof.
  destruct (tensor_wf_spec a Hwa) as (HM & HK & Ha).
  destruct (tensor_wf_spec b Hwb) as (_ & HN & Hb).
  pose proof (addressable_view_int32 a Hwa Haddr_a) as Ha32.
  pose proof (addressable_view_int32 b Hwb Haddr_b) as Hb32.
  rewrite Hshape in Ha, Ha32.
  rewrite matmul_passes by done.
  destruct (launch_correct (storage a) (storage b) M N K
    (stride0 a) (stride1 a) (stride0 b) (stride1 b) (Z.max N 1) 1
    META activation Hcfg HM HN ltac:(lia) Ha32 Hb32
    (row_major_view_int32 M N Hsize_c) Ha Hb (row_major_view_inj M N)
    (storage (torch_empty fill M N float16))
    (torch_empty_view_ok fill M N float16 HM HN)) as (buf & Hrun & Hval).
  exists buf. rewrite Hrun. split; [done|].
  intros i j Hi Hj. rewrite (Hval i j Hi Hj).
  unfold expected, tile_product, reference, elem. by rewrite Hshape.
Qed.
End HostFacts.

(** ** The accumulator of one program, in exact arithmetic *)

Section AccumulatorExact.
Context {In Acc Out : Type} `{!Arith In Acc Out} `{!ArithLaws In Acc Out}.
Variables (a b : tensor In) (META : Config) (pid : Z).

Hypothesis Hcfg : valid_config META = true.
Hypothesis Hwa : tensor_wf a = true.
Hypothesis Hwb : tensor_wf b = true.
Hypothesis Hshape : shape1 a = shape0 b.
Hypothesis Haddr_a : addressable a = true.
Hypothesis Haddr_b : addressable b = true.
Hypothesis Hpid : 0 <= pid < grid (shape0 a) (shape1 b) META.

Lemma accumulator_exact :
  exists st,
    accumulation_loop (storage a) (storage b) (shape0 a) (shape1 b) (shape0 b)
      (stride0 a) (stride1 a) (stride0 b) (stride1 b) META pid = Some st /\
    forall i j, 0 <= i -> 0 <= j ->
      c_mask (shape0 a) (shape1 b) META pid i j = true ->
      accumulator st i j
      = reference a b (offs_cm (shape0 a) (shape1 b) META pid i)
                      (offs_cn (shape0 a) (shape1 b) META pid j).
Proof.
  destruct (tensor_wf_spec a Hwa) as (HM & HK & Ha).
  destruct (tensor_wf_spec b Hwb) as (_ & HN & Hb).
  pose proof (addressable_view_int32 a Hwa Haddr_a) as Ha32.
  pose proof (addressable_view_int32 b Hwb Haddr_b) as Hb32.
  rewrite Hshape in Ha, HK, Ha32.
  destruct (valid_config_pos _ Hcfg) as (HBM & HBN & HBK & HG).
  pose proof (accumulation_loop_spec (storage a) (storage b)
    (shape0 a) (shape1 b) (shape0 b)
    (stride0 a) (stride1 a) (stride0 b) (stride1 b) META pid
    (cdiv_nonneg _ _ HK HBK)) as Hloop.
  destruct (accumulation_loop _ _ _ _ _ _ _ _ _ _ _) as [st|].
  2:{ exfalso. apply Hloop. by apply loads_ok. }
  destruct Hloop as (_ & _ & Hacc).
  exists st. split; [done|].
  intros i j Hi Hj Hm. rewrite Hacc, acc_lane_exact by done.
  destruct (kept_lane_unwrapped _ _ _ _ Hcfg HM HN Hpid i j Hi Hj Hm) as [-> ->].
  unfold tile_product, reference, elem. by rewrite Hshape.
Qed.
End AccumulatorExact.

Lemma activate_other {In Acc Out : Type} `{!Arith In Acc Out} (sel : string) (x : Acc) :
  sel <> "leaky_relu" -> activate sel x = x.
Proof.
  intros Hne. unfold activate.
  by rewrite (proj2 (String.eqb_neq _ _) Hne).
Qed.

(** ** What a store changes, and when it faults *)

Section StoreChanges.
Context {T : Type}.
Variables (ptrs : block Z) (value : block T) (mask : block bool).

(** Every element that differs after a store holds the value of a kept
    lane, at the address of that lane. *)
Lemma store_lanes_changes ls : forall (buf buf' : list T) (p : nat),
  for_each (store_lane ptrs value mask) ls buf = Some buf' ->
  buf' !! p = buf !! p \/
  exists l, l ∈ ls /\ mask l.1 l.2 = true /\
            ptrs l.1 l.2 = Z.of_nat p /\ buf' !! p = Some (value l.1 l.2).
Proof.
  induction ls as [|l ls IH]; intros buf buf' p Hrun; simpl in Hrun.
  - left. by inversion Hrun.
  - unfold store_lane in Hrun at 1.
    destruct (mask l.1 l.2) eqn:Hm.
    2:{ destruct (IH _ _ p Hrun) as [Heq|(l' & Hl' & Hrest)]; [by left|].
        right. exists l'. split; [by right | done]. }
    destruct (in_bounds buf (ptrs l.1 l.2)) eqn:Hb; [|done].
    apply in_bounds_spec in Hb.
    destruct (IH _ _ p Hrun) as [Heq|(l' & Hl' & Hrest)].
    2:{ right. exists l'. split; [by right | done]. }
    destruct (decide (Z.to_nat (ptrs l.1 l.2) = p)) as [Hp|Hp].
    + right. exists l. split; [by left|]. split; [done|]. split; [lia|].
      rewrite Heq, <- Hp. apply list_lookup_insert_eq. lia.
    + left. rewrite Heq. by apply list_lookup_insert_ne.
Qed.

(** A kept lane whose address lies before the storage makes the store
    fault. *)
Lemma store_lanes_fault ls l :
  l ∈ ls -> mask l.1 l.2 = true -> ptrs l.1 l.2 < 0 ->
  forall buf : list T, for_each (store_lane ptrs value mask) ls buf = None.
Proof.
  intros Hin Hm Hneg. induction ls as [|l0 ls IH]; intros buf.
  - by apply elem_of_nil in Hin.
  - simpl. apply elem_of_cons in Hin as [<-|Hin].
    + unfold store_lane at 1. rewrite Hm.
      assert (in_bounds buf (ptrs l.1 l.2) = false) as ->; [|done].
      unfold in_bounds. apply andb_false_iff. left. lia.
    + destruct (store_lane ptrs value mask l0 buf); [|done]. by apply IH.
Qed.
End StoreChanges.

(** A launch whose first program faults, faults. *)
Lemma launch_faults {T} n (program : Z -> list T -> option (list T)) (buf : list T) :
  0 < n -> program 0 buf = None -> launch n program buf = None.
Proof.
  intros Hn Hp. unfold launch. rewrite seqZ_cons by done.
  simpl. by rewrite Hp.
Qed.

(** ** The accumulator, block after block *)

(** The program instances of a launch may run in any order; [launch] is
    the order [0, 1, ..., n - 1]. *)
Definition launch_in_order {T : Type} (ps : list Z)
    (program : Z -> list T -> option (list T)) (buf : list T)
    : option (list T * list Z) :=
  for_each (fun pid (st : list T * list Z) =>
              match program pid st.1 with
              | Some buf' => Some (buf', st.2 ++ [pid])
              | None => None
              end)
    ps (buf, []).

Lemma launch_is_in_order {T} n (program : Z -> list T -> option (list T)) buf :
  launch n program buf = launch_in_order (seqZ 0 n) program buf.
Proof. reflexivity. Qed.

Section Blocked.
Context {In Acc Out : Type} `{!Arith In Acc Out}.
Variables (a_buf b_buf : list In).
Variables (M N K : Z).
Variables (stride_am stride_ak stride_bk stride_bn stride_cm stride_cn : Z).
Variable (META : Config).
Variable (ACTIVATION : string).

Local Abbreviation BM := (BLOCK_SIZE_M META).
Local Abbreviation BN := (BLOCK_SIZE_N META).
Local Abbreviation BK := (BLOCK_SIZE_K META).
Local Abbreviation program :=
  (matmul_kernel a_buf b_buf M N K stride_am stride_ak stride_bk stride_bn
     stride_cm stride_cn META ACTIVATION).
Local Abbreviation step :=
  (fun pid (st : list Out * list Z) =>
     match program pid st.1 with
     | Some buf' => Some (buf', st.2 ++ [pid])
     | None => None
     end).

(** Specification side: the accumulator of element [(r, c)] as the loop
    builds it from the elements of the two views, block of [BLOCK_SIZE_K]
    after block, with zeros in the lanes past [K]; no law of arithmetic
    is used. *)
Definition blocked_product (r c : Z) : Acc :=
  fold_left (fun y s => acc_add y
     (fold_left (fun t kk => acc_add t (in_mul
         (if k_mask K META s kk
          then default in_zero (a_buf !! Z.to_nat
                 (r * stride_am + (s * BK + kk) * stride_ak))
          else in_zero)
         (if k_mask K META s kk
          then default in_zero (b_buf !! Z.to_nat
                 ((s * BK + kk) * stride_bk + c * stride_bn))
          else in_zero)))
        (seqZ 0 BK) acc_zero))
    (seqZ 0 (cdiv K BK)) acc_zero.

(** Specification side: the element the launch leaves at [(r, c)]. *)
Definition stored_value (r c : Z) : Out :=
  to_out (activate ACTIVATION (blocked_product r c)).

Hypothesis Hcfg : valid_config META = true.
Hypothesis HM : 0 <= M.
Hypothesis HN : 0 <= N.
Hypothesis HK : 0 <= K.
Hypothesis Ha32 : view_int32 M K stride_am stride_ak.
Hypothesis Hb32 : view_int32 K N stride_bk stride_bn.

Lemma acc_lane_blocked pid i j :
  0 <= pid < grid M N META ->
  acc_lane a_buf b_buf M N K stride_am stride_ak stride_bk stride_bn META pid
    (seqZ 0 (cdiv K BK)) acc_zero i j
  = blocked_product (offs_am M N META pid i) (offs_bn M N META pid j).
Proof.
  intros Hpid. unfold acc_lane, blocked_product.
  apply fold_left_ext_in. intros y s Hs%elem_of_seqZ. f_equal.
  unfold block_sum. apply fold_left_ext_in. intros t kk Hkk%elem_of_seqZ. f_equal.
  unfold a_lane, b_lane.
  destruct (k_mask K META s kk) eqn:Hm; [|done].
  rewrite (a_address M N K stride_am stride_ak META pid Hcfg HM HN HK Hpid)
    by (done || lia).
  rewrite (b_address M N K stride_bk stride_bn META pid Hcfg HM HN HK Hpid)
    by (done || lia).
  done.
Qed.

(** Whenever a program returns, every element of the storage of C that
    differs afterwards is at the address of a lane the store keeps, and
    holds what the program computed on that lane. *)
Lemma matmul_kernel_changes pid (c_buf c' : list Out) (p : nat) :
  0 <= pid < grid M N META ->
  program pid c_buf = Some c' ->
  c' !! p = c_buf !! p \/
  exists i j, 0 <= i < BM /\ 0 <= j < BN /\
    c_mask M N META pid i j = true /\
    c_ptrs M N stride_cm stride_cn META pid i j = Z.of_nat p /\
    c' !! p = Some (stored_value (offs_cm M N META pid i) (offs_cn M N META pid j)).
Proof.
  intros Hpid.
  destruct (valid_config_pos _ Hcfg) as (HBM & HBN & HBK & HG).
  pose proof (accumulation_loop_spec a_buf b_buf M N K
    stride_am stride_ak stride_bk stride_bn META pid
    (cdiv_nonneg K BK HK HBK)) as Hloop.
  unfold matmul_kernel.
  destruct (accumulation_loop _ _ _ _ _ _ _ _ _ _ _) as [st|]; [|done].
  destruct Hloop as (_ & _ & Hacc).
  unfold store. intros Hrun.
  destruct (store_lanes_changes _ _ _ _ _ _ p Hrun)
    as [Heq|([i j] & [Hi Hj]%elem_of_lanes & Hm & Hp & Hv)]; [by left|].
  right. simpl in *. exists i, j. repeat split; try done; try lia.
  rewrite Hv, activation_lane, Hacc, acc_lane_blocked by done.
  destruct (kept_lane_unwrapped M N META pid Hcfg HM HN Hpid i j
              ltac:(lia) ltac:(lia) Hm) as [-> ->].
  done.
Qed.

Hypothesis Hc32 : view_int32 M N stride_cm stride_cn.
Hypothesis Ha : view_ok a_buf M K stride_am stride_ak.
Hypothesis Hb : view_ok b_buf K N stride_bk stride_bn.
Hypothesis Hinj : view_inj M N stride_cm stride_cn.

(** Programs run in any order leave [stored_value] at every element whose
    tile has run, and what was there before everywhere else. *)
Lemma programs_run_blocked ps : forall (buf : list Out) ran,
  (forall pid, pid ∈ ps -> 0 <= pid < grid M N META) ->
  view_ok buf M N stride_cm stride_cn ->
  exists buf',
    for_each step ps (buf, ran) = Some (buf', ran ++ ps) /\
    length buf' = length buf /\
    forall r c, 0 <= r < M -> 0 <= c < N ->
      ((exists pid, pid ∈ ps /\
          pid_m M N META pid = r / BM /\ pid_n M N META pid = c / BN) \/
       buf !! Z.to_nat (r * stride_cm + c * stride_cn) = Some (stored_value r c)) ->
      buf' !! Z.to_nat (r * stride_cm + c * stride_cn) = Some (stored_value r c).
Proof.
  induction ps as [|pid ps IH]; intros buf ran Hps Hc.
  - exists buf. split; [by rewrite app_nil_r|]. split; [done|].
    intros r c _ _ [(pid & Hin & _)|Hold]; [by apply elem_of_nil in Hin | done].
  - assert (Hpid : 0 <= pid < grid M N META) by (apply Hps; left).
    destruct (valid_config_pos _ Hcfg) as (HBM & HBN & HBK & HG).
    destruct (matmul_kernel_effect a_buf b_buf M N K
      stride_am stride_ak stride_bk stride_bn stride_cm stride_cn
      META ACTIVATION pid Hcfg HM HN HK Hpid buf Ha32 Hb32 Hc32 Ha Hb Hc)
      as (buf1 & Hp & Hw).
    destruct (matmul_kernel_frame _ _ _ _ _ _ _ _ _ _ _ _ _ _
                Hcfg HM HN Hpid _ _ Hp) as [Hlen Hfr].
    destruct (IH buf1 (ran ++ [pid]) ltac:(intros; apply Hps; by right)
                (view_ok_length _ _ _ _ _ _ Hlen Hc))
      as (buf' & Hrun & Hlen' & Hval).
    exists buf'. split; [|split; [congruence|]].
    { simpl. rewrite Hp. simpl. by rewrite Hrun, <- app_assoc. }
    intros r c Hr Hcc Hcase. apply Hval; [done ..|].
    pose proof (Z.div_mod r BM ltac:(lia)) as Hdr.
    pose proof (Z.mod_pos_bound r BM HBM) as Hmr.
    pose proof (Z.div_mod c BN ltac:(lia)) as Hdc.
    pose proof (Z.mod_pos_bound c BN HBN) as Hmc.
    destruct (decide (pid_m M N META pid = r / BM /\
                      pid_n M N META pid = c / BN)) as [[Er Ec]|Hother].
    + right.
      set (i := r - pid_m M N META pid * BM).
      set (j := c - pid_n M N META pid * BN).
      assert (Hi : 0 <= i < BM) by (unfold i; nia).
      assert (Hj : 0 <= j < BN) by (unfold j; nia).
      assert (Hor : offs_cm M N META pid i = r) by (unfold offs_cm, i; lia).
      assert (Hoc : offs_cn M N META pid j = c) by (unfold offs_cn, j; lia).
      assert (Hm : c_mask M N META pid i j = true).
      { apply c_mask_spec; [done .. | lia | lia |]. rewrite Hor, Hoc. lia. }
      specialize (Hw Hinj i j Hi Hj Hm).
      destruct (kept_lane_unwrapped M N META pid Hcfg HM HN Hpid i j
                  ltac:(lia) ltac:(lia) Hm) as [Ear Ebc].
      rewrite (c_address M N stride_cm stride_cn META pid Hcfg HM HN Hpid)
        in Hw by (done || lia).
      rewrite Hor, Hoc in Hw.
      rewrite Hw. unfold stored_lane, stored_value.
      by rewrite acc_lane_blocked, Ear, Ebc, Hor, Hoc.
    + destruct Hcase as [(pid' & Hin & Er & Ec)|Hold].
      * left. exists pid'. split; [|done].
        apply elem_of_cons in Hin as [->|Hin]; [|done].
        exfalso. by apply Hother.
      * right. rewrite <- Hold. apply Hfr; [done|].
        intros r' c' Hr1 Hr2 Hc1 Hc2 Heq.
        pose proof (Hc r c Hr Hcc) as Hb0. apply in_bounds_spec in Hb0.
        destruct (tile_in_grid M N META pid Hcfg HM HN Hpid) as (Hpm & Hpn & _).
        destruct (Hinj r' c' r c) as [-> ->]; [nia | nia | done | done | lia |].
        apply Hother. split.
        -- apply (Z.div_unique r BM _ (r - pid_m M N META pid * BM)); lia.
        -- apply (Z.div_unique c BN _ (c - pid_n M N META pid * BN)); lia.
Qed.
End Blocked.

Section RowMajorOutput.
Context {In Acc Out : Type} `{!Arith In Acc Out}.
Variables (a_buf b_buf : list In).
Variables (M N K : Z).
Variables (stride_am stride_ak stride_bk stride_bn : Z).
Variable (META : Config).
Variable (ACTIVATION : string).

Local Abbreviation program :=
  (matmul_kernel a_buf b_buf M N K stride_am stride_ak stride_bk stride_bn
     (Z.max N 1) 1 META ACTIVATION).

Hypothesis Hcfg : valid_config META = true.
Hypothesis HM : 0 <= M.
Hypothesis HN : 0 <= N.
Hypothesis HK : 0 <= K.
Hypothesis Ha32 : view_int32 M K stride_am stride_ak.
Hypothesis Hb32 : view_int32 K N stride_bk stride_bn.
Hypothesis Hsize : M * N <= 2147483648.
Hypothesis Ha : view_ok a_buf M K stride_am stride_ak.
Hypothesis Hb : view_ok b_buf K N stride_bk stride_bn.

(** Specification side: the content of a row-major [M x N] storage after
    the launch. *)
Definition output_values : list Out :=
  map (fun p : nat =>
         stored_value a_buf b_buf K stride_am stride_ak stride_bk stride_bn
           META ACTIVATION (Z.of_nat p / N) (Z.of_nat p mod N))
    (seq 0 (Z.to_nat (M * N))).

(** Whatever a row-major storage of [M * N] elements holds and in whatever
    order the programs of the grid run, each at least once, the storage
    ends as [output_values]. *)
Lemma schedule_closed_form ps (buf : list Out) :
  (forall pid, pid ∈ ps <-> 0 <= pid < grid M N META) ->
  length buf = Z.to_nat (M * N) ->
  launch_in_order ps program buf = Some (output_values, ps).
Proof.
  intros Hps Hlen.
  destruct (valid_config_pos _ Hcfg) as (HBM & HBN & HBK & HG).
  assert (Hc : view_ok buf M N (Z.max N 1) 1).
  { intros i j Hi Hj. rewrite in_bounds_spec, Hlen. nia. }
  destruct (programs_run_blocked a_buf b_buf M N K
    stride_am stride_ak stride_bk stride_bn (Z.max N 1) 1 META ACTIVATION
    Hcfg HM HN HK Ha32 Hb32 (row_major_view_int32 M N Hsize)
    Ha Hb (row_major_view_inj M N) ps buf []
    ltac:(intros pid Hpid; by apply Hps) Hc) as (buf' & Hrun & Hlen' & Hval).
  unfold launch_in_order. rewrite Hrun. simpl. do 2 f_equal.
  apply list_eq. intros p. unfold output_values.
  destruct (decide (p < Z.to_nat (M * N))%nat) as [Hp|Hp].
  - rewrite list_lookup_fmap, lookup_seq_lt by done. simpl.
    assert (HNpos : 0 < N) by nia.
    pose proof (Z.div_mod (Z.of_nat p) N ltac:(lia)) as Hdm.
    pose proof (Z.mod_pos_bound (Z.of_nat p) N HNpos) as Hmb.
    assert (Hr : 0 <= Z.of_nat p / N < M).
    { split; [apply Z.div_pos; lia | apply Z.div_lt_upper_bound; lia]. }
    specialize (Hval (Z.of_nat p / N) (Z.of_nat p mod N) Hr Hmb).
    replace (Z.to_nat (Z.of_nat p / N * Z.max N 1 + Z.of_nat p mod N * 1))
      with p in Hval by lia.
    apply Hval. left.
    destruct (grid_mapping_onto M N META
                (Z.of_nat p / N / BLOCK_SIZE_M META)
                (Z.of_nat p mod N / BLOCK_SIZE_N META) HM HN HBM HBN HG)
      as (pid & Hpid & Er & Ec).
    + by apply tile_of_index.
    + by apply tile_of_index.
    + exists pid. split; [by apply Hps | done].
  - rewrite !lookup_ge_None_2; [done | |].
    + rewrite length_fmap, length_seq. lia.
    + rewrite Hlen', Hlen. lia.
Qed.

Lemma output_values_length : length output_values = Z.to_nat (M * N).
Proof. unfold output_values. by rewrite length_map, length_seq. Qed.
End RowMajorOutput.

Lemma in_grid_of_permutation (n : Z) (ps : list Z) :
  ps ≡ₚ seqZ 0 n -> forall pid, pid ∈ ps <-> 0 <= pid < n.
Proof.
  intros Hperm pid. rewrite Hperm, elem_of_seqZ. lia.
Qed.
(** ** An output of 2^32 elements *)

(** The configuration 256/128/128/8 of the CUDA catalog, and the product
    of a [256 x 0] by a [0 x 16777216] tensor: the output has 2^32
    elements and its row stride is 2^24. *)
Definition META_256_128 : Config := cuda_config 256 128 128 8 3 8.
Definition tall_no_columns : tensor Q := mkTensor float16 256 0 1 1 [].
Definition wide_no_rows : tensor Q := mkTensor float16 0 16777216 16777216 1 [].

(** Lane [(128, 0)] of program 0 is kept by the store; its row offset
    [128 * 2^24 = 2^31] wraps around to [- 2^31]. *)
Lemma large_output_lane :
  c_mask 256 16777216 META_256_128 0 128 0 = true /\
  c_ptrs 256 16777216 16777216 1 META_256_128 0 128 0 = -2147483648.
Proof. split; reflexivity. Qed.

(** Program 0 stores before the start of the storage of C, whatever the
    storages are. *)
Lemma large_output_program_faults {In Acc Out : Type} `{!Arith In Acc Out}
    (a_buf b_buf : list In) (stride_am stride_ak stride_bk stride_bn : Z)
    (ACTIVATION : string) (c_buf : list Out) :
  matmul_kernel a_buf b_buf 256 16777216 0
    stride_am stride_ak stride_bk stride_bn 16777216 1
    META_256_128 ACTIVATION 0 c_buf = None.
Proof.
  unfold matmul_kernel, accumulation_loop.
  change (seqZ 0 (cdiv 0 (BLOCK_SIZE_K META_256_128))) with (@nil Z).
  cbn [for_each]. unfold store.
  apply (store_lanes_fault _ _ _ _ (128, 0)).
  - apply elem_of_lanes. cbn. lia.
  - exact (proj1 large_output_lane).
  - cbn [fst snd]. rewrite (proj2 large_output_lane). lia.
Qed.

Lemma wide_no_rows_wf : tensor_wf wide_no_rows = true.
Proof.
  unfold tensor_wf, wide_no_rows, lanes. cbn [shape0 shape1].
  rewrite (seqZ_nil 0 0) by lia. reflexivity.
Qed.

(** ** The product *)



(** ** The accumulation loop masks the tail of the reduction *)


(** ** Wrapped rows and columns never reach the output *)

(** A view of five rows and one column whose row stride is [2^30 + 1]:
    row 4 lies at offset [2^32 + 4], which a 32-bit product turns into
    4. *)
Definition META_1_1_1_1 : Config := mkConfig 1 1 1 1 None 1 1.

Definition far_rows (x : Q) : list Q :=
  [0; 0; 0; 0; x]%Q ++ replicate (Z.to_nat 4294967296) 0%Q.

(** Program 4 reads element 4 of the storage instead of row 4 of the
    view, and stores it. *)
Lemma wrapped_row_read (x : Q) (rest : list Q) :
  matmul_kernel ([0; 0; 0; 0; x]%Q ++ rest) [1%Q] 5 1 1 1073741825 1 1 1 1 1
    META_1_1_1_1 default_activation 4 (replicate 5 0%Q)
  = Some [0; 0; 0; 0; Qplus 0 (Qplus 0 (Qmult x 1))]%Q.
Proof.
  unfold matmul_kernel, accumulation_loop.
  change (seqZ 0 (cdiv 1 (BLOCK_SIZE_K META_1_1_1_1))) with [0].
  cbn [for_each]. unfold loop_body.
  rewrite load_Some.
  2:{ intros i j Hi Hj _. assert (i = 0) as -> by (cbn in Hi; lia).
      assert (j = 0) as -> by (cbn in Hj; lia).
      change (a_ptrs (loop_init 5 1 1073741825 1 1 1 META_1_1_1_1 4) 0 0) with 4.
      rewrite in_bounds_spec, length_app. cbn [length]. lia. }
  rewrite load_Some.
  2:{ intros i j Hi Hj _. assert (i = 0) as -> by (cbn in Hi; lia).
      assert (j = 0) as -> by (cbn in Hj; lia). reflexivity. }
  reflexivity.
Qed.

Lemma far_rows_view_ok x : view_ok (far_rows x) 5 1 1073741825 1.
Proof.
  intros i j Hi Hj. unfold far_rows.
  rewrite in_bounds_spec, length_app, length_replicate. cbn [length]. lia.
Qed.

(** The two storages differ at element 4 only, which no element of the
    view occupies. *)
Lemma far_rows_agree x y : agree_on (far_rows x) (far_rows y) 5 1 1073741825 1.
Proof.
  intros i j Hi Hj. unfold far_rows.
  destruct (decide (i = 0)) as [->|Hne].
  - assert (j = 0) as -> by lia. reflexivity.
  - rewrite !lookup_app_r by (cbn [length]; lia). reflexivity.
Qed.



(** ** The write-back touches the valid region only *)

(** A storage for the output of 2^32 elements. *)
Definition large_output : list Q := replicate (Z.to_nat 4294967296) 0%Q.



(** ** The fused activation *)

(** C6: with the selector ["leaky_relu"] every element [x] of the
    accumulator becomes [x] when [x >= 0] and [0.01 * x] otherwise; with any
    other selector, the empty string included, the accumulator is left as
    it is; in exact rational arithmetic the elements -1, 0, 1 become
    -1/100, 0, 1. *)
Theorem activation_variants {In Acc Out : Type} `{!Arith In Acc Out} :
  (forall (acc : block Acc) i j,
     activation "leaky_relu" acc i j
     = if acc_nonneg (acc i j) then acc i j else acc_centi (acc i j)) /\
  (forall (sel : string) (acc : block Acc) i j,
     sel <> "leaky_relu" -> activation sel acc i j = acc i j) /\
  (forall (acc : block Acc) i j, activation default_activation acc i j = acc i j) /\
  (forall (sel : string) (acc : block Acc),
     (forall i j, activation sel acc i j = acc i j) \/
     (forall i j, activation sel acc i j = leaky_relu (acc i j))) /\
  map (fun j => @activation Q Q Q Q_arith "leaky_relu"
                  (fun _ k => nth (Z.to_nat k) [-1; 0; 1]%Q 0%Q) 0 j) [0; 1; 2]
  = [(-1 # 100); 0; 1]%Q.
Proof.
  split; [|split; [|split; [|split]]].
  - intros acc i j. reflexivity.
  - intros sel acc i j Hsel. unfold activation.
    by rewrite (proj2 (String.eqb_neq _ _) Hsel).
  - intros acc i j. reflexivity.
  - intros sel acc. unfold activation.
    destruct (String.eqb sel "leaky_relu"); [by right | by left].
  - reflexivity.
Qed.

Lemma activation_variants_relu :
  activation "relu" (fun _ _ => (-1)%Q) 0 0 = (-1)%Q.
Proof.
  refine (proj1 (proj2 (@activation_variants Q Q Q Q_arith))
            "relu" (fun _ _ => (-1)%Q) 0 0 _).
  intros Heq. discriminate Heq.
Defined.

(** ** The checks of the wrapper *)

(** A launch that returns has dispatched the program instances
    [0 .. n - 1] in order, and keeps the length of the storage when every
    program does. *)
Lemma launch_dispatches {T} n (program : Z -> list T -> option (list T))
    (buf buf' : list T) ran :
  (forall pid b b', 0 <= pid < n -> program pid b = Some b' ->
     length b' = length b) ->
  launch n program buf = Some (buf', ran) ->
  ran = seqZ 0 n /\ length buf' = length buf.
Proof.
  intros Hlen. unfold launch.
  assert (Hgen : forall ps b0 r0,
    (forall pid, pid ∈ ps -> 0 <= pid < n) ->
    for_each (fun pid (st : list T * list Z) =>
                match program pid st.1 with
                | Some b' => Some (b', st.2 ++ [pid])
                | None => None
                end) ps (b0, r0) = Some (buf', ran) ->
    ran = r0 ++ ps /\ length buf' = length b0).
  { induction ps as [|pid ps IH]; intros b0 r0 Hps Hrun; simpl in Hrun.
    - inversion Hrun. by rewrite app_nil_r.
    - destruct (program pid b0) as [b1|] eqn:Hp; [|done].
      destruct (IH b1 (r0 ++ [pid]) ltac:(intros; apply Hps; by right) Hrun)
        as [-> Hl].
      split; [by rewrite <- app_assoc|].
      rewrite Hl. apply (Hlen pid); [apply Hps; left | done]. }
  intros Hrun. apply (Hgen (seqZ 0 n) buf []); [|done].
  intros pid Hpid%elem_of_seqZ. lia.
Qed.


(** A 4 x 4 tensor multiplied by a 3 x 4 tensor, and a transposed view. *)
Definition three_by_four : tensor Q := row_major float16 3 4 (replicate 12 1%Q).
Definition transposed_ones : tensor Q := mkTensor float16 4 4 1 4 (replicate 16 1%Q).

(** ** The type and shape of the result *)


(** Inputs stored as [float8_e5m2]. *)
Definition fp8_twice_identity : tensor Q :=
  row_major float8_e5m2 4 4 [2;0;0;0; 0;2;0;0; 0;0;2;0; 0;0;0;2]%Q.
Definition fp8_all_ones : tensor Q :=
  row_major float8_e5m2 4 4 (replicate 16 1%Q).

(** ** Narrowing happens once, at the store *)

Lemma fold_left_sim {A A' B : Type} (R : A -> A' -> Prop)
    (f : A -> B -> A) (g : A' -> B -> A') (l : list B) (x : A) (y : A') :
  R x y ->
  (forall x y k, k ∈ l -> R x y -> R (f x k) (g y k)) ->
  R (fold_left f l x) (fold_left g l y).
Proof.
  revert x y. induction l as [|k l IH]; intros x y Hxy Hstep; [done|].
  simpl. apply IH.
  - apply Hstep; [by left | done].
  - intros x' y' k' Hk'. apply Hstep. by right.
Qed.

(** Values that carry the element type they are held in.  [round d] is
    the rounding to the element type [d]; every operation of the kernel
    rounds to the type of its result. *)
Definition typed : Type := dtype * Q.

(** The type of a sum: the wider of the types of its operands. *)
Definition wider (d1 d2 : dtype) : dtype :=
  if dtype_bits d1 <? dtype_bits d2 then d2 else d1.

Section TypedArithmetic.
Variable round : dtype -> Q -> Q.
Variable in_dtype : dtype.

(** The arithmetic of the kernel on typed values: a masked lane holds
    zero in the element type of the input; [tl.zeros] gives zeros of the
    accumulator type; [tl.dot(a, b, accumulator)] forms the products in
    the accumulator type and adds in the wider type; [0.01 * x] keeps
    the type of [x]; [.to(tl.float16)] gives the stored type. *)
Definition typed_arith : Arith typed typed typed := {|
  in_zero := (in_dtype, 0%Q);
  acc_zero := (accumulator_dtype, 0%Q);
  acc_add := fun x y => (wider x.1 y.1, round (wider x.1 y.1) (Qplus x.2 y.2));
  in_mul := fun x y => (accumulator_dtype, round accumulator_dtype (Qmult x.2 y.2));
  acc_nonneg := fun x => Qle_bool 0 x.2;
  acc_centi := fun x => (x.1, round x.1 (Qmult (1 # 100) x.2));
  to_out := fun x => (stored_dtype, round stored_dtype x.2)
|}.

#[local] Existing Instance typed_arith.

Variables (a_buf b_buf : list typed).
Variables (M N K : Z).
Variables (stride_am stride_ak stride_bk stride_bn : Z).
Variable (META : Config).
Variable (ACTIVATION : string).

Lemma typed_sum_dtype (g : Z -> typed) (l : list Z) (x : typed) :
  x.1 = accumulator_dtype ->
  (forall k, (g k).1 = accumulator_dtype) ->
  (fold_left (fun t k => acc_add t (g k)) l x).1 = accumulator_dtype.
Proof.
  intros Hx Hg.
  apply (fold_left_sim (fun (t : typed) (_ : unit) => t.1 = accumulator_dtype)
           _ (fun u _ => u) l x tt Hx).
  intros t _ k _ Ht. simpl. by rewrite Ht, Hg.
Qed.

(** A step of the loop keeps the accumulator in the accumulator type. *)
Lemma loop_body_dtype k (st st' : loop_state) :
  loop_body a_buf b_buf K stride_ak stride_bk META k st = Some st' ->
  (forall i j, (accumulator st i j).1 = accumulator_dtype) ->
  forall i j, (accumulator st' i j).1 = accumulator_dtype.
Proof.
  unfold loop_body. intros Hbody Hst i j.
  destruct (load a_buf _ _ _ _ _) as [a|]; [|done].
  destruct (load b_buf _ _ _ _ _) as [b|]; [|done].
  inversion Hbody; subst st'; clear Hbody. cbn [accumulator]. unfold dot.
  set (s := fold_left _ _ _).
  assert (Hs : s.1 = accumulator_dtype)
    by (apply (typed_sum_dtype (fun k0 => in_mul (a i k0) (b k0 j))); done).
  change (wider (accumulator st i j).1 s.1 = accumulator_dtype).
  by rewrite Hst, Hs.
Qed.

Lemma loop_dtype steps : forall (st st' : loop_state),
  for_each (loop_body a_buf b_buf K stride_ak stride_bk META) steps st = Some st' ->
  (forall i j, (accumulator st i j).1 = accumulator_dtype) ->
  forall i j, (accumulator st' i j).1 = accumulator_dtype.
Proof.
  induction steps as [|k steps IH]; intros st st' Hrun Hst; simpl in Hrun.
  - by inversion Hrun; subst.
  - destruct (loop_body _ _ _ _ _ _ k st) as [st1|] eqn:Hbody; [|done].
    apply (IH st1 st' Hrun). by apply (loop_body_dtype k st).
Qed.

(** The activation keeps the type of the accumulator. *)
Lemma activation_dtype (acc : block typed) i j :
  (activation ACTIVATION acc i j).1 = (acc i j).1.
Proof.
  unfold activation. destruct (String.eqb _ _); [|done].
  unfold leaky_relu. by destruct (acc_nonneg _).
Qed.

(** The value a lane of a load holds. *)
Lemma typed_lane_value (buf : list typed) (enabled : bool) (n : nat) :
  (if enabled then default (in_dtype, 0%Q) (buf !! n) else (in_dtype, 0%Q)).2
  = if enabled then default 0%Q ((snd <$> buf) !! n) else 0%Q.
Proof.
  destruct enabled; [|done].
  rewrite list_lookup_fmap. destruct (_ !! _); reflexivity.
Qed.

Hypothesis Hround : forall x, round accumulator_dtype x = x.

(** When the accumulator type is exact, the accumulator of an element is
    the one exact arithmetic builds from the values of the inputs. *)
Lemma blocked_product_typed r c :
  blocked_product a_buf b_buf K stride_am stride_ak stride_bk stride_bn META r c
  = (accumulator_dtype,
     @blocked_product Q Q Q Q_arith (snd <$> a_buf) (snd <$> b_buf) K
       stride_am stride_ak stride_bk stride_bn META r c).
Proof.
  unfold blocked_product.
  apply (fold_left_sim (fun (x : typed) (y : Q) => x = (accumulator_dtype, y)));
    [done|].
  intros x y s _ ->.
  set (inner := fold_left _ (seqZ 0 (BLOCK_SIZE_K META)) acc_zero).
  set (innerQ := fold_left _ (seqZ 0 (BLOCK_SIZE_K META)) (@acc_zero Q Q Q Q_arith)).
  assert (inner = (accumulator_dtype, innerQ)) as ->.
  { apply (fold_left_sim (fun (x : typed) (y : Q) => x = (accumulator_dtype, y)));
      [done|].
    intros t tq kk _ ->. simpl. rewrite !Hround.
    by rewrite !typed_lane_value. }
  simpl. by rewrite Hround.
Qed.

Lemma stored_value_typed r c :
  stored_value a_buf b_buf K stride_am stride_ak stride_bk stride_bn
    META ACTIVATION r c
  = (stored_dtype,
     round stored_dtype
       (@stored_value Q Q Q Q_arith (snd <$> a_buf) (snd <$> b_buf) K
          stride_am stride_ak stride_bk stride_bn META ACTIVATION r c)).
Proof.
  unfold stored_value. rewrite blocked_product_typed.
  unfold activate. destruct (String.eqb _ _); [|done].
  unfold leaky_relu. simpl. destruct (Qle_bool 0 _); [done|].
  simpl. by rewrite Hround.
Qed.
End TypedArithmetic.


(** Inputs of halves and ones in [float16], a reduction in four steps of
    one index, and a narrowing that drops the fractional part: every
    element of the product is 2.  Narrowing after each step would leave
    0. *)
Definition to_integer (d : dtype) (x : Q) : Q :=
  match d with float32 => x | _ => inject_Z (Qnum x / Zpos (Qden x)) end.

Definition META_2_2_1_1 : Config := mkConfig 2 2 1 1 None 1 1.


Example narrowing_only_at_store_halves_value :
  map (fun v : Q => (float16, to_integer float16 v))
    (@output_values Q Q Q Q_arith
       (snd <$> replicate 16 (float16, 1 # 2))
       (snd <$> replicate 16 (float16, 1%Q))
       4 4 4 4 1 4 1 META_2_2_1_1 default_activation)
  = replicate 16 (float16, 2%Q).
Proof. vm_compute. reflexivity. Qed.

(** The same launch when [float32] drops the fractional part as well:
    every step adds a half that is rounded away, and the product is lost. *)
Example rounding_at_every_step_differs :
  launch (grid 4 4 META_2_2_1_1)
    (@matmul_kernel _ _ _ (typed_arith (fun _ x => to_integer float16 x) float16)
       (replicate 16 (float16, 1 # 2)) (replicate 16 (float16, 1%Q))
       4 4 4 4 1 4 1 (Z.max 4 1) 1 META_2_2_1_1 default_activation)
    (replicate 16 (float16, 0%Q))
  = Some (replicate 16 (float16, 0%Q), seqZ 0 (grid 4 4 META_2_2_1_1)).
Proof. vm_compute. reflexivity. Qed.
(** ** The autotuner *)

Module Autotuner.

(** Modelled from the spec: the shape key of [@triton.autotune(configs=...,
    key=['M', 'N', 'K'])], whose implementation is in the Triton library:
    the triple (M, N, K) used to select and cache a configuration. *)
Abbreviation shape_key := (Z * Z * Z)%type.

(** Modelled from the spec: the process-wide state of the autotuner, a
    cache from shape keys to the chosen configuration, populated lazily and
    never invalidated; [sweeps] counts the benchmarking sweeps run so far
    (the injected counter of the spec's memoization test). *)
Record state := mkState {
  cache : gmap (Z * Z * Z) Config;
  sweeps : nat
}.

(** Modelled from the spec: the state at process start. *)
Definition initial : state := {| cache := ∅; sweeps := 0 |}.

Section WithBench.
(** The measured cost of running the kernel end to end with a candidate,
    [None] when the candidate fails to execute; it may differ from one
    sweep to the next. *)
Variable bench : nat -> shape_key -> Config -> option Z.

(** Modelled from the spec: one benchmarking sweep, which benchmarks every
    candidate of the catalog in order, leaves out the candidates that fail
    and keeps the candidate of lowest measured cost. *)
Fixpoint sweep (n : nat) (key : shape_key) (configs : list Config)
    (best : option (Config * Z)) : option (Config * Z) :=
  match configs with
  | [] => best
  | c :: rest =>
      match bench n key c, best with
      | None, _ => sweep n key rest best
      | Some t, None => sweep n key rest (Some (c, t))
      | Some t, Some (cb, tb) =>
          if t <? tb then sweep n key rest (Some (c, t))
          else sweep n key rest (Some (cb, tb))
      end
  end.

(** Modelled from the spec: [select(shape_key, configs)]: a cached key
    returns its configuration immediately; a new key runs one sweep and
    memoizes the winner; a catalog without a working candidate is fatal
    ([None]). *)
Definition select (key : shape_key) (configs : list Config) (st : state)
    : option Config * state :=
  match cache st !! key with
  | Some c => (Some c, st)
  | None =>
      match sweep (sweeps st) key configs None with
      | Some (c, _) =>
          (Some c, {| cache := <[key := c]> (cache st); sweeps := S (sweeps st) |})
      | None => (None, {| cache := cache st; sweeps := S (sweeps st) |})
      end
  end.

(** Modelled from the spec: the state after a sequence of later calls. *)
Definition run (calls : list (shape_key * list Config)) (st : state) : state :=
  fold_left (fun s call => (select call.1 call.2 s).2) calls st.

Lemma select_keeps key c key' configs st :
  cache st !! key = Some c -> cache (select key' configs st).2 !! key = Some c.
Proof.
  intros Hc. unfold select.
  destruct (cache st !! key') as [c'|] eqn:Hk'; [done|].
  destruct (sweep _ _ _ _) as [[c' t]|]; [|done].
  simpl. rewrite lookup_insert_ne; [done|].
  intros ->. rewrite Hc in Hk'. discriminate Hk'.
Qed.

Lemma run_keeps key c calls st :
  cache st !! key = Some c -> cache (run calls st) !! key = Some c.
Proof.
  revert st. induction calls as [|call calls IH]; intros st Hc; [done|].
  simpl. apply IH. by apply select_keeps.
Qed.

Lemma select_caches key configs st c st1 :
  select key configs st = (Some c, st1) -> cache st1 !! key = Some c.
Proof.
  unfold select. destruct (cache st !! key) as [c'|] eqn:Hk.
  - intros Heq. inversion Heq. by subst.
  - destruct (sweep _ _ _ _) as [[c' t]|]; [|done].
    intros Heq. inversion Heq. simpl. apply lookup_insert_eq.
Qed.

(** C9: once [select] has chosen a configuration for a shape key, then
    after any sequence of later calls, for any keys, a call with that key
    returns the same configuration and leaves the state, its count of
    benchmarking sweeps included, as it is. *)
Theorem select_memoized key configs st c st1 :
  select key configs st = (Some c, st1) ->
  forall calls configs',
    select key configs' (run calls st1) = (Some c, run calls st1) /\
    sweeps (select key configs' (run calls st1)).2 = sweeps (run calls st1).
Proof.
  intros Hsel%select_caches calls configs'.
  pose proof (run_keeps key c calls st1 Hsel) as Hc.
  unfold select. rewrite Hc. done.
Qed.

End WithBench.

(** A cost that depends on the sweep: the second sweep would choose another
    winner than the first one. *)
Definition noisy_bench (n : nat) (key : shape_key) (c : Config) : option Z :=
  if (256 <=? BLOCK_SIZE_M c) then None
  else Some (if Nat.even n then BLOCK_SIZE_M c else 1000 - BLOCK_SIZE_M c).

Lemma select_memoized_512 :
  select noisy_bench (512, 512, 512) get_cuda_autotune_config
    (run noisy_bench
       [((1024, 1024, 1024), get_cuda_autotune_config);
        ((512, 512, 512), get_cuda_autotune_config)]
       (select noisy_bench (512, 512, 512) get_cuda_autotune_config initial).2)
  = (Some (cuda_config 32 64 32 8 5 2),
     run noisy_bench
       [((1024, 1024, 1024), get_cuda_autotune_config);
        ((512, 512, 512), get_cuda_autotune_config)]
       (select noisy_bench (512, 512, 512) get_cuda_autotune_config initial).2).
Proof.
  refine (proj1 (select_memoized noisy_bench (512, 512, 512)
    get_cuda_autotune_config initial (cuda_config 32 64 32 8 5 2)
    (select noisy_bench (512, 512, 512) get_cuda_autotune_config initial).2
    _ _ get_cuda_autotune_config)).
  vm_compute. reflexivity.
Defined.

End Autotuner.

(** * Further properties of the launch order *)

From Stdlib Require Import Qfield Lqa Ascii.

Local Open Scope Z_scope.

Section GroupedOrderShapes.
Variables (npm npn G : Z).
Hypothesis Hnpm : 0 <= npm.
Hypothesis Hnpn : 0 <= npn.
Hypothesis HG : 1 <= G.

(** With groups of one row the order is the row-major one. *)
Lemma g_row_major pid :
  G = 1 -> 0 <= pid < npm * npn ->
  g_row npm npn G pid = pid / npn /\ g_col npm npn G pid = pid mod npn.
Proof.
  intros -> Hpid.
  destruct (g_facts npm npn 1 Hnpm ltac:(lia) pid Hpid)
    as (Hn & HW & Hg & Hr & Hdm & Hf & Hs & Hfs & Hrs).
  unfold g_row, g_col.
  assert (Hsize : g_size npm npn 1 pid = 1) by lia.
  rewrite Hsize, Z.mod_1_r, Z.div_1_r. unfold g_first.
  replace (1 * npn) with npn by lia. lia.
Qed.

(** With one group that holds every row the order is the column-major
    one. *)
Lemma g_column_major pid :
  npm <= G -> 0 <= pid < npm * npn ->
  g_row npm npn G pid = pid mod npm /\ g_col npm npn G pid = pid / npm.
Proof.
  intros Hone Hpid.
  destruct (g_facts npm npn G Hnpm HG pid Hpid)
    as (Hn & HW & Hg & Hr & Hdm & Hf & Hs & Hfs & Hrs).
  assert (Hq : pid / (G * npn) = 0) by (apply Z.div_small; nia).
  assert (Hm : pid mod (G * npn) = pid) by (apply Z.mod_small; nia).
  unfold g_row, g_col, g_size, g_first. rewrite Hq, Hm.
  replace (Z.min (npm - 0 * G) G) with npm by lia. lia.
Qed.

(** Inside a group the next program is one row further down, in the same
    column, until the last row of the group is reached. *)
Lemma g_next_in_group pid :
  0 <= pid < npm * npn ->
  g_row npm npn G pid + 1 < g_first npn G pid + g_size npm npn G pid ->
  0 <= pid + 1 < npm * npn /\
  g_row npm npn G (pid + 1) = g_row npm npn G pid + 1 /\
  g_col npm npn G (pid + 1) = g_col npm npn G pid.
Proof.
  intros Hpid Hnext.
  destruct (g_facts npm npn G Hnpm HG pid Hpid)
    as (Hn & HW & Hg & Hr & Hdm & Hf & Hs & Hfs & Hrs).
  unfold g_row in Hnext. unfold g_row, g_col, g_size, g_first in *.
  set (W := G * npn) in *. set (g := pid / W) in *. set (r := pid mod W) in *.
  set (s := Z.min (npm - g * G) G) in *.
  pose proof (Z.div_mod r s ltac:(lia)) as Hdm2.
  pose proof (Z.mod_pos_bound r s ltac:(lia)) as Hmb2.
  assert (0 <= r / s) by (apply Z.div_pos; lia).
  assert (Hlt : r / s < npn) by (apply Z.div_lt_upper_bound; lia).
  assert (Hr1 : r + 1 < s * npn).
  { assert (s * (r / s + 1) <= s * npn) by (apply Z.mul_le_mono_nonneg_l; lia).
    lia. }
  assert (Hq : (pid + 1) / W = g).
  { symmetry. apply (Z.div_unique _ _ _ (r + 1)); [nia | lia]. }
  assert (Hm : (pid + 1) mod W = r + 1).
  { symmetry. apply (Z.mod_unique _ _ g); [nia | lia]. }
  rewrite Hq, Hm. fold s.
  assert (Hm2 : (r + 1) mod s = r mod s + 1).
  { symmetry. apply (Z.mod_unique _ _ (r / s)); lia. }
  assert (Hq2 : (r + 1) / s = r / s).
  { symmetry. apply (Z.div_unique _ _ _ (r mod s + 1)); lia. }
  rewrite Hm2, Hq2. split; [nia | lia].
Qed.
End GroupedOrderShapes.





(** X3: inside a group consecutive program ids walk down the tile rows of
    one tile column: while [pid] is not on the last row of its group,
    [pid + 1] is a program of the grid on the next row and the same
    column, so the programs of a group column share one block column of
    B. *)
Theorem next_program_in_group (M N : Z) (META : Config) (pid : Z) :
  0 <= M -> 0 <= N ->
  0 < BLOCK_SIZE_M META -> 0 < BLOCK_SIZE_N META ->
  1 <= GROUP_SIZE_M META ->
  0 <= pid < grid M N META ->
  pid_m M N META pid + 1 < first_pid_m N META pid + group_size_m M N META pid ->
  0 <= pid + 1 < grid M N META /\
  pid_m M N META (pid + 1) = pid_m M N META pid + 1 /\
  pid_n M N META (pid + 1) = pid_n M N META pid.
Proof.
  intros HM HN HBM HBN HG Hpid Hnext.
  exact (g_next_in_group (num_pid_m M META) (num_pid_n N META) (GROUP_SIZE_M META)
           (cdiv_nonneg M _ HM HBM) HG pid Hpid Hnext).
Qed.

Lemma next_program_in_group_9 :
  0 <= 4 + 1 < grid 9 9 META_4_4_4_2 /\
  pid_m 9 9 META_4_4_4_2 (4 + 1) = pid_m 9 9 META_4_4_4_2 4 + 1 /\
  pid_n 9 9 META_4_4_4_2 (4 + 1) = pid_n 9 9 META_4_4_4_2 4.
Proof.
  apply (next_program_in_group 9 9 META_4_4_4_2 4);
    [lia | lia | reflexivity | reflexivity | simpl; lia | | ].
  - change (grid 9 9 META_4_4_4_2) with 9. lia.
  - vm_compute. reflexivity.
Defined.

(** The launch-grid mapping is injective on the program ids of the grid. *)
Lemma grid_mapping_inj (M N : Z) (META : Config) (p q : Z) :
  0 <= M -> 0 <= N ->
  0 < BLOCK_SIZE_M META -> 0 < BLOCK_SIZE_N META -> 1 <= GROUP_SIZE_M META ->
  0 <= p < grid M N META -> 0 <= q < grid M N META ->
  pid_m M N META p = pid_m M N META q ->
  pid_n M N META p = pid_n M N META q -> p = q.
Proof.
  intros HM HN HBM HBN HG Hp Hq Hr Hc.
  pose proof (cdiv_nonneg M _ HM HBM) as Hm.
  pose proof (cdiv_nonneg N _ HN HBN) as Hn.
  destruct (g_row_col_range _ _ _ Hm Hn HG p Hp) as (_ & _ & _ & _ & Ep).
  destruct (g_row_col_range _ _ _ Hm Hn HG q Hq) as (_ & _ & _ & _ & Eq).
  change (g_row (cdiv M (BLOCK_SIZE_M META)) (cdiv N (BLOCK_SIZE_N META))
            (GROUP_SIZE_M META) p
          = g_row (cdiv M (BLOCK_SIZE_M META)) (cdiv N (BLOCK_SIZE_N META))
              (GROUP_SIZE_M META) q) in Hr.
  change (g_col (cdiv M (BLOCK_SIZE_M META)) (cdiv N (BLOCK_SIZE_N META))
            (GROUP_SIZE_M META) p
          = g_col (cdiv M (BLOCK_SIZE_M META)) (cdiv N (BLOCK_SIZE_N META))
              (GROUP_SIZE_M META) q) in Hc.
  rewrite <- Ep, <- Eq, Hr, Hc. reflexivity.
Qed.

(** * Further properties of the launch *)





(** * Further properties of the wrapper *)









Lemma map_const_seq {A} (x : A) (start n : nat) :
  map (fun _ : nat => x) (seq start n) = replicate n x.
Proof.
  revert start. induction n as [|n IH]; intros start; [done|].
  simpl. by rewrite IH.
Qed.

(** X10: an empty output launches nothing: when [a] has no row or [b] has no
    column, a call that passes the two checks dispatches no program and
    returns the tensor of shape [(M, N)] over an empty storage. *)
Theorem matmul_empty_output {In Acc Out : Type} `{!Arith In Acc Out}
    (META : Config) (fill : nat -> Out) (a b : tensor In) (activation : string) :
  valid_config META = true ->
  shape1 a = shape0 b -> is_contiguous a = true ->
  shape0 a = 0 \/ shape1 b = 0 ->
  matmul META fill a b activation = Returned (result_tensor a b [], []).
Proof.
  intros Hcfg Hshape Hcontig Hempty.
  destruct (valid_config_pos _ Hcfg) as (HBM & HBN & _).
  rewrite matmul_passes by done.
  assert (Hgrid : grid (shape0 a) (shape1 b) META = 0).
  { unfold grid, cdiv. destruct Hempty as [-> | ->].
    - rewrite (Z.div_small (0 + _ - 1)) by lia. lia.
    - rewrite (Z.div_small (0 + _ - 1)) by lia. lia. }
  assert (Hsize : shape0 a * shape1 b = 0) by nia.
  rewrite Hgrid. unfold launch. rewrite seqZ_nil by lia. simpl.
  by rewrite Hsize.
Qed.

Definition no_rows : tensor Q := row_major float16 0 4 [].

Lemma matmul_empty_output_no_rows :
  matmul META_2_2_2_1 (fun _ => 77%Q) no_rows all_ones "leaky_relu"
  = Returned (result_tensor no_rows all_ones [], []).
Proof.
  apply (matmul_empty_output META_2_2_2_1 (fun _ => 77%Q) no_rows all_ones
           "leaky_relu").
  - reflexivity.
  - reflexivity.
  - reflexivity.
  - left. reflexivity.
Defined.


Definition no_columns : tensor Q := row_major float16 4 0 [].
Definition no_rows_b : tensor Q := row_major float16 0 4 [].


(** * The benchmark script *)

(** [str.lower()] on ASCII strings. *)
Definition lower_ascii (c : ascii) : ascii :=
  let n := nat_of_ascii c in
  if ((65 <=? n) && (n <=? 90))%nat then ascii_of_nat (n + 32) else c.

Fixpoint lower (s : string) : string :=
  match s with
  | EmptyString => EmptyString
  | String c s' => String (lower_ascii c) (lower s')
  end.

(** [ref_lib = 'cuBLAS' if is_cuda() else 'rocBLAS']. *)
Definition ref_lib (is_cuda : bool) : string :=
  if is_cuda then "cuBLAS" else "rocBLAS".

(** [triton.testing.Benchmark(...)], with the fields the script sets;
    [args] is the value of its only entry, [fp8_inputs]. *)
Record Benchmark := mkBenchmark {
  x_names : list string;
  x_vals : list Z;
  line_arg : string;
  line_vals : list string;
  line_names : list string;
  styles : list (string * string);
  ylabel : string;
  plot_name : string;
  args : bool
}.

(** The list [configs] after the loop [for fp8_inputs in [False, True]],
    for the two facts of the environment the loop tests. *)
Definition configs (TORCH_HAS_FP8 is_cuda : bool) : list Benchmark :=
  fold_left
    (fun configs fp8_inputs =>
       if fp8_inputs && (negb TORCH_HAS_FP8 || negb is_cuda) then configs
       else configs ++
         [ {| x_names := ["M"; "N"; "K"];
              x_vals := map (fun i => 128 * i) (seqZ 2 31);
              line_arg := "provider";
              line_vals := if fp8_inputs then ["triton"]
                           else [lower (ref_lib is_cuda); "triton"];
              line_names := if fp8_inputs then ["Triton"]
                            else [ref_lib is_cuda; "Triton"];
              styles := [("green", "-"); ("blue", "-")];
              ylabel := "TFLOPS";
              plot_name := String.append "matmul-performance-"
                             (if negb fp8_inputs then "fp16" else "fp8");
              args := fp8_inputs |} ])
    [false; true] [].

(** What [do_bench] is asked to time: [torch.matmul(a, b)] or
    [matmul(a, b)], on inputs converted to fp8 or not. *)
Inductive workload :=
  | torch_matmul (fp8 : bool)
  | triton_matmul (fp8 : bool).

(** [perf = lambda ms: 2 * M * N * K * 1e-12 / (ms * 1e-3)], in exact
    rational arithmetic. *)
Definition perf (M N K : Z) (ms : Q) : Q :=
  (inject_Z (2 * M * N * K) * (1 # 1000000000000) / (ms * (1 # 1000)))%Q.

(** [benchmark(M, N, K, provider, fp8_inputs)], for a timing oracle
    [do_bench] that returns [(ms, min_ms, max_ms)].  [None] is the
    [UnboundLocalError] raised at [perf(ms)] when neither [if] assigned
    [ms]. *)
Definition benchmark (do_bench : workload -> Q * Q * Q)
    (TORCH_HAS_FP8 is_cuda : bool) (M N K : Z) (provider : string)
    (fp8_inputs : bool) : option (Q * Q * Q) :=
  let fp8 := TORCH_HAS_FP8 && fp8_inputs in
  let timing : option (Q * Q * Q) := None in
  let timing :=
    if String.eqb provider (lower (ref_lib is_cuda))
    then Some (do_bench (torch_matmul fp8)) else timing in
  let timing :=
    if String.eqb provider "triton"
    then Some (do_bench (triton_matmul fp8)) else timing in
  match timing with
  | Some (ms, min_ms, max_ms) =>
      Some (perf M N K ms, perf M N K max_ms, perf M N K min_ms)
  | None => None
  end.

(** The calls [benchmark.run] makes: for every benchmark, every value of
    [x_vals] (given to each of [M], [N] and [K]) and every provider of
    [line_vals], with the benchmark's [args]. *)
Definition benchmark_calls (cfgs : list Benchmark) : list (Z * string * bool) :=
  flat_map (fun cfg =>
    flat_map (fun x =>
      map (fun provider => (x, provider, args cfg)) (line_vals cfg))
      (x_vals cfg))
    cfgs.

Example configs_on_cuda_with_fp8 :
  map (fun cfg => (plot_name cfg, line_vals cfg, args cfg)) (configs true true)
  = [("matmul-performance-fp16", ["cublas"; "triton"], false);
     ("matmul-performance-fp8", ["triton"], true)].
Proof. reflexivity. Qed.

Example configs_on_hip :
  map (fun cfg => (plot_name cfg, line_vals cfg, args cfg)) (configs true false)
  = [("matmul-performance-fp16", ["rocblas"; "triton"], false)].
Proof. reflexivity. Qed.

Lemma x_vals_range (x : Z) :
  In x (map (fun i => 128 * i) (seqZ 2 31)) -> x mod 128 = 0 /\ 256 <= x <= 4096.
Proof.
  intros (i & <- & Hi%list_elem_of_In%elem_of_seqZ)%in_map_iff.
  split; [|lia]. rewrite Z.mul_comm. apply Z.mod_mul. lia.
Qed.

Lemma benchmark_calls_inv (T c : bool) (x : Z) (provider : string) (fp8 : bool) :
  (x, provider, fp8) ∈ benchmark_calls (configs T c) ->
  In x (map (fun i => 128 * i) (seqZ 2 31)) /\
  ((fp8 = false /\ (provider = lower (ref_lib c) \/ provider = "triton")) \/
   (fp8 = true /\ provider = "triton" /\ T = true /\ c = true)).
Proof.
  intros Hin%list_elem_of_In. unfold benchmark_calls in Hin.
  apply in_flat_map in Hin as (cfg & Hcfg & Hin).
  apply in_flat_map in Hin as (x' & Hx & Hin).
  apply in_map_iff in Hin as (prov & Heq & Hprov).
  inversion Heq; subst; clear Heq.
  destruct T, c; cbn in Hcfg;
    repeat (destruct Hcfg as [<-|Hcfg]; [|try done]);
    cbn in Hx, Hprov |- *;
    repeat (destruct Hprov as [<-|Hprov]; [|try done]);
    (split; [exact Hx|]); tauto.
Qed.

(** X12: every call the benchmark run makes reaches the [return] of
    [benchmark] (one of the two [if]s assigns [ms]); [torch.matmul] is never
    timed on fp8 inputs, so the outcome does not depend on what timing
    that would give; the fp8 line is benchmarked only for the provider
    ["triton"] and only on CUDA with fp8 support; and every size is a
    multiple of 128 between 256 and 4096. *)
Theorem benchmark_calls_are_handled (d1 d2 : workload -> Q * Q * Q)
    (TORCH_HAS_FP8 is_cuda : bool) (x : Z) (provider : string) (fp8 : bool) :
  (x, provider, fp8) ∈ benchmark_calls (configs TORCH_HAS_FP8 is_cuda) ->
  (forall w, w <> torch_matmul true -> d1 w = d2 w) ->
  is_Some (benchmark d1 TORCH_HAS_FP8 is_cuda x x x provider fp8) /\
  benchmark d1 TORCH_HAS_FP8 is_cuda x x x provider fp8
  = benchmark d2 TORCH_HAS_FP8 is_cuda x x x provider fp8 /\
  (fp8 = true -> provider = "triton" /\ TORCH_HAS_FP8 = true /\ is_cuda = true) /\
  (x mod 128 = 0 /\ 256 <= x <= 4096).
Proof.
  intros Hin Hd. destruct (benchmark_calls_inv _ _ _ _ _ Hin) as (Hx & Hcase).
  split; [|split; [|split; [|by apply x_vals_range]]].
  - destruct TORCH_HAS_FP8, is_cuda;
      destruct Hcase as [(-> & [-> | ->]) | (-> & -> & HT & Hc)];
      try discriminate; unfold benchmark;
      change (lower (ref_lib true)) with "cublas";
      change (lower (ref_lib false)) with "rocblas"; cbn;
      destruct (d1 _) as [[ms mn] mx]; by eexists.
  - destruct TORCH_HAS_FP8, is_cuda;
      destruct Hcase as [(-> & [-> | ->]) | (-> & -> & HT & Hc)];
      try discriminate; unfold benchmark;
      change (lower (ref_lib true)) with "cublas";
      change (lower (ref_lib false)) with "rocblas"; cbn;
      rewrite Hd by discriminate; reflexivity.
  - intros ->. destruct Hcase as [(Hf & _) | (_ & -> & -> & ->)]; done.
Qed.

Definition constant_timing (w : workload) : Q * Q * Q := (2, 1, 3)%Q.

Lemma benchmark_calls_are_handled_fp8 :
  is_Some (benchmark constant_timing true true 256 256 256 "triton" true) /\
  (true = true -> "triton" = "triton" /\ true = true /\ true = true).
Proof.
  destruct (benchmark_calls_are_handled constant_timing constant_timing
              true true 256 "triton" true) as (Hsome & _ & Hfp8 & _).
  - apply list_elem_of_In. unfold benchmark_calls. apply in_flat_map.
    exists (nth 1 (configs true true) (mkBenchmark [] [] EmptyString [] [] [] EmptyString EmptyString false)).
    split; [right; left; reflexivity|].
    apply in_flat_map. exists 256. split.
    + apply in_map_iff. exists 2. split; [reflexivity|].
      apply list_elem_of_In, elem_of_seqZ. lia.
    + left. reflexivity.
  - reflexivity.
  - split; [exact Hsome | exact Hfp8].
Defined.

Lemma Qdiv_antitone (C u v : Q) :
  (0 <= C -> 0 < u -> u <= v -> C / v <= C / u)%Q.
Proof.
  intros HC Hu Huv.
  apply Qle_shift_div_l; [assumption|].
  apply Qle_trans with (C / v * v)%Q.
  - assert (0 <= C / v)%Q by (apply Qle_shift_div_l; lra).
    nra.
  - assert (H : (C / v * v == C)%Q) by (field; lra). rewrite H. lra.
Qed.

Lemma perf_antitone (M N K : Z) (u v : Q) :
  0 <= M -> 0 <= N -> 0 <= K ->
  (0 < u -> u <= v -> perf M N K v <= perf M N K u)%Q.
Proof.
  intros HM HN HK Hu Huv. unfold perf.
  apply Qdiv_antitone; [|lra|lra].
  assert (0 <= inject_Z (2 * M * N * K))%Q.
  { change 0%Q with (inject_Z 0). rewrite <- Zle_Qle. nia. }
  nra.
Qed.

(** X13: [benchmark] returns its triple in the order (value, low, high):
    for non-negative sizes and a timing whose quantiles are positive and
    ordered ([min_ms <= ms <= max_ms]), the second component, computed
    from [max_ms], is at most the first and the third, computed from
    [min_ms], is at least the first. *)
Theorem benchmark_returns_ordered_triple (do_bench : workload -> Q * Q * Q)
    (TORCH_HAS_FP8 is_cuda : bool) (M N K : Z) (provider : string)
    (fp8_inputs : bool) (y lo hi : Q) :
  0 <= M -> 0 <= N -> 0 <= K ->
  (forall w, (0 < (do_bench w).1.2 /\ (do_bench w).1.2 <= (do_bench w).1.1 /\
              (do_bench w).1.1 <= (do_bench w).2)%Q) ->
  benchmark do_bench TORCH_HAS_FP8 is_cuda M N K provider fp8_inputs
    = Some (y, lo, hi) ->
  (lo <= y /\ y <= hi)%Q.
Proof.
  intros HM HN HK Hq. unfold benchmark.
  set (t1 := if String.eqb provider (lower (ref_lib is_cuda))
             then Some (do_bench (torch_matmul (TORCH_HAS_FP8 && fp8_inputs)))
             else None).
  assert (Hany : forall t : option (Q * Q * Q),
    (forall r, t = Some r -> exists w, r = do_bench w) ->
    match t with
    | Some (ms, min_ms, max_ms) =>
        Some (perf M N K ms, perf M N K max_ms, perf M N K min_ms)
    | None => None
    end = Some (y, lo, hi) -> (lo <= y /\ y <= hi)%Q).
  { intros [r|] Hr; [|done].
    destruct (Hr r eq_refl) as (w & ->). specialize (Hq w).
    destruct (do_bench w) as [[ms mn] mx]. simpl in Hq.
    intros Heq. inversion Heq; subst.
    split; apply perf_antitone; try done; lra. }
  apply Hany.
  intros r. destruct (String.eqb provider "triton").
  - intros Heq. inversion Heq. by eexists.
  - unfold t1. destruct (String.eqb provider _); [|done].
    intros Heq. inversion Heq. by eexists.
Qed.

Lemma benchmark_returns_ordered_triple_512 :
  (perf 512 512 512 3 <= perf 512 512 512 2 /\
   perf 512 512 512 2 <= perf 512 512 512 1)%Q.
Proof.
  apply (benchmark_returns_ordered_triple constant_timing true true
           512 512 512 "triton" false).
  - lia.
  - lia.
  - lia.
  - intros w. simpl. lra.
  - reflexivity.
Defined.

(** * The activation in exact rational arithmetic *)

(** X14: over the rationals [leaky_relu] is the identity on [x >= 0], maps
    a negative [x] to [x / 100], which lies strictly between [x] and 0,
    and is monotone: [x <= y] gives [leaky_relu x <= leaky_relu y]. *)
Theorem leaky_relu_monotone :
  (forall x : Q, (0 <= x)%Q -> @leaky_relu Q Q Q Q_arith x = x) /\
  (forall x : Q, (x < 0)%Q ->
     @leaky_relu Q Q Q Q_arith x = ((1 # 100) * x)%Q /\
     (x < @leaky_relu Q Q Q Q_arith x)%Q /\
     (@leaky_relu Q Q Q Q_arith x < 0)%Q) /\
  (forall x y : Q, (x <= y)%Q ->
     (@leaky_relu Q Q Q Q_arith x <= @leaky_relu Q Q Q Q_arith y)%Q).
Proof.
  assert (Hpos : forall x : Q, (0 <= x)%Q -> @leaky_relu Q Q Q Q_arith x = x).
  { intros x Hx. unfold leaky_relu. simpl.
    by rewrite (proj2 (Qle_bool_iff 0 x) Hx). }
  assert (Hneg : forall x : Q, (x < 0)%Q ->
            @leaky_relu Q Q Q Q_arith x = ((1 # 100) * x)%Q).
  { intros x Hx. unfold leaky_relu. simpl.
    destruct (Qle_bool 0 x) eqn:Hb; [|done].
    apply Qle_bool_iff in Hb. lra. }
  split; [exact Hpos|]. split.
  - intros x Hx. rewrite (Hneg x Hx). split; [done|]. split; lra.
  - intros x y Hxy.
    destruct (Qlt_le_dec x 0) as [Hx|Hx], (Qlt_le_dec y 0) as [Hy|Hy].
    + rewrite (Hneg x Hx), (Hneg y Hy). lra.
    + rewrite (Hneg x Hx), (Hpos y Hy). lra.
    + lra.
    + by rewrite (Hpos x Hx), (Hpos y Hy).
Qed.

(** * A pre-transposed right operand *)

(** [t.T], as the torch library defines it: the transposed view of the
    same storage. *)
Definition transpose {T : Type} (t : tensor T) : tensor T :=
  {| t_dtype := t_dtype t;
     shape0 := shape1 t; shape1 := shape0 t;
     stride0 := stride1 t; stride1 := stride0 t;
     storage := storage t |}.

Lemma tensor_wf_intro {T} (t : tensor T) :
  0 <= shape0 t -> 0 <= shape1 t ->
  view_ok (storage t) (shape0 t) (shape1 t) (stride0 t) (stride1 t) ->
  tensor_wf t = true.
Proof.
  intros H0 H1 Hok. unfold tensor_wf.
  rewrite !andb_true_iff, forallb_forall.
  split; [lia|].
  intros [i j] [Hi Hj]%list_elem_of_In%elem_of_lanes. by apply Hok.
Qed.

Lemma transpose_wf {T} (t : tensor T) :
  tensor_wf t = true -> tensor_wf (transpose t) = true.
Proof.
  intros (H0 & H1 & Hok)%tensor_wf_spec.
  apply tensor_wf_intro; simpl; [done | done |].
  intros i j Hi Hj. rewrite Z.add_comm. by apply Hok.
Qed.


(** The storage of the transpose of [b99], read back through [.T]. *)
Definition b99_transposed_storage : tensor Q :=
  row_major float16 9 9
    (flat_map (fun j => map (fun k => elem 0%Q b99 k j) (seqZ 0 9)) (seqZ 0 9)).


Example transposed_b_gives_the_same_product :
  matmul META_4_4_4_2 (fun _ => 77%Q) a99 (transpose b99_transposed_storage)
    "leaky_relu"
  = matmul META_4_4_4_2 (fun _ => 77%Q) a99 b99 "leaky_relu".
Proof. vm_compute. reflexivity. Qed.

(** * Every element of C has one writer *)



